(** * Chat orchestration of the todo application: conversation store,
      turn handling, tool dispatch and the chat front end.

    The development embeds the Python access layer of the conversation
    store (data-model.md, "Query Patterns"), the turn handler
    [handle_chat] (research.md, "Stateless Request Handling") and the
    React components [ChatInput], [ChatPage] and [ChatContainer], and
    states the properties of the design document over them. *)

From stdpp Require Import gmap strings list sorting.
From Stdlib Require Import Ascii DecimalString.


(** * Part I: definitions *)

(** ** Values shared by the store and the turn handler *)

(** A primary key drawn by [uuid4()] and an instant read by
    [datetime.utcnow()]. *)
Definition uuid := nat.
Definition datetime := nat.

(** JSON documents, the content of the [tool_calls] column (JSONB). *)
#[warnings="-register-all"] Inductive json :=
| JNull
| JBool (b : bool)
| JNum (z : Z)
| JStr (s : string)
| JArr (items : list json)
| JObj (fields : list (string * json)).

(** Exceptions raised inside a request. The first four come from the
    database session, [NotFound] from conversation resolution, the last
    two from the reasoning step. *)
Inductive Exn :=
| IntegrityError
| DataError
| StaleDataError
| InvalidRequestError
| NotFound
| Timeout
| InvalidResponse.

Inductive result (A : Type) :=
| Ok (a : A)
| Raise (e : Exn).
Arguments Ok {A} a.
Arguments Raise {A} e.

(** ** Entities (data-model.md) *)

Module Conversation.
Record t := mk {
  id : uuid;
  user_id : string;
  title : option string;
  created_at : datetime;
  updated_at : datetime
}.
Definition set_updated_at (now : datetime) (c : t) : t :=
  mk (id c) (user_id c) (title c) (created_at c) now.
End Conversation.

Module Message.
Record t := mk {
  id : uuid;
  conversation_id : uuid;
  role : string;
  content : string;
  tool_calls : option json;
  created_at : datetime
}.
End Message.

(** A task row as the task components read it ([task.id], [task.title],
    [task.description], [task.completed], [task.created_at]), with the
    owner the backend scopes it by (the task table itself is not part
    of the sources at hand; the specification speaks of "the user's
    task data"). *)
Module Task.
Record t := mk {
  id : nat;
  user_id : string;
  title : string;
  description : option string;
  completed : bool;
  created_at : datetime
}.
#[global] Instance eq_dec : EqDecision t.
Proof. solve_decision. Defined.
End Task.

(** ** The database and the world around a request *)

(** The committed tables. [conversations] is indexed by its primary key;
    [messages] keeps the rows in insertion order. *)
Record Database := mkDatabase {
  conversations : gmap uuid Conversation.t;
  messages : list Message.t;
  tasks : list Task.t
}.

(** What a request can observe besides its arguments: the committed
    database, the wall clock and the source of keys. Every reading of
    the clock observes a later instant than the one before. [uuid4()] is
    a counter here; a key that is taken already makes the INSERT fail,
    as a duplicate drawn at random would. Failures of the database
    server itself are outside the model. *)
Record World := mkWorld {
  db : Database;
  clock : datetime;
  next_uuid : uuid
}.

Definition set_db (d : Database) (w : World) : World :=
  mkWorld d (clock w) (next_uuid w).

Definition utcnow (w : World) : World * datetime :=
  (mkWorld (db w) (S (clock w)) (next_uuid w), clock w).

Definition uuid4 (w : World) : World * uuid :=
  (mkWorld (db w) (clock w) (S (next_uuid w)), next_uuid w).

(** ** The session: a unit of work flushed by [commit] *)

(** Objects registered with [session.add] and not yet flushed. *)
Inductive Pending :=
| NewConversation (c : Conversation.t)
| NewMessage (m : Message.t)
| DirtyConversation (cid : uuid) (updated_at : datetime).

Definition message_ids (d : Database) : list uuid :=
  Message.id <$> messages d.

(** The columns of the migration (data-model.md, "Database Migration"):
    [user_id VARCHAR(255)], [title VARCHAR(200)], and
    [role VARCHAR(20) NOT NULL CHECK (role IN ('user', 'assistant',
    'tool'))]. The models are table models, which are not validated
    when they are built, so the limits are those of the database. *)
Definition user_id_limit : nat := 255.
Definition title_limit : nat := 200.
Definition role_limit : nat := 20.
Definition role_values : list string := ["user"; "assistant"; "tool"].

Fixpoint only_spaces (s : string) : bool :=
  match s with
  | EmptyString => true
  | String c s' => Ascii.eqb c " " && only_spaces s'
  end.

(** A text stored into a [VARCHAR(n)] column (a string is a sequence of
    characters here). A text that is too long is refused with "value
    too long" ([DataError]), unless all it has too much are spaces: then
    it is cut to [n] characters. *)
Definition varchar (n : nat) (s : string) : result string :=
  if bool_decide (String.length s ≤ n) then Ok s
  else if only_spaces (String.substring n (String.length s - n) s)
       then Ok (String.substring 0 n s)
       else Raise DataError.

Definition varchar_null (n : nat) (s : option string)
  : result (option string) :=
  match s with
  | None => Ok None
  | Some t =>
      match varchar n t with
      | Ok t' => Ok (Some t')
      | Raise e => Raise e
      end
  end.

(** One statement of the flush. An INSERT first fits the values to
    their columns, then checks the CHECK constraint of the table, then
    the primary key, and a message INSERT in the end the foreign key
    ([conversation_id] REFERENCES conversations(id)); the violation of
    a constraint is an [IntegrityError]. The UPDATE writes the
    [updated_at] column only and fails when no row matches. *)
Definition flush1 (d : Database) (p : Pending) : result Database :=
  match p with
  | NewConversation c =>
      match varchar user_id_limit (Conversation.user_id c) with
      | Raise e => Raise e
      | Ok user_id =>
          match varchar_null title_limit (Conversation.title c) with
          | Raise e => Raise e
          | Ok title =>
              match conversations d !! Conversation.id c with
              | Some _ => Raise IntegrityError
              | None =>
                  let row :=
                    Conversation.mk (Conversation.id c) user_id title
                      (Conversation.created_at c)
                      (Conversation.updated_at c) in
                  Ok (mkDatabase
                        (<[Conversation.id c := row]> (conversations d))
                        (messages d) (tasks d))
              end
          end
      end
  | NewMessage m =>
      match varchar role_limit (Message.role m) with
      | Raise e => Raise e
      | Ok role =>
          if bool_decide (role ∈ role_values) then
            if bool_decide (Message.id m ∈ message_ids d)
            then Raise IntegrityError
            else match conversations d !! Message.conversation_id m with
                 | None => Raise IntegrityError
                 | Some _ =>
                     let row :=
                       Message.mk (Message.id m) (Message.conversation_id m)
                         role (Message.content m) (Message.tool_calls m)
                         (Message.created_at m) in
                     Ok (mkDatabase (conversations d) (messages d ++ [row])
                                    (tasks d))
                 end
          else Raise IntegrityError
      end
  | DirtyConversation cid now =>
      match conversations d !! cid with
      | None => Raise StaleDataError
      | Some c =>
          Ok (mkDatabase
                (<[cid := Conversation.set_updated_at now c]> (conversations d))
                (messages d) (tasks d))
      end
  end.

Fixpoint flush (d : Database) (ps : list Pending) : result Database :=
  match ps with
  | [] => Ok d
  | p :: ps' =>
      match flush1 d p with
      | Ok d' => flush d' ps'
      | Raise e => Raise e
      end
  end.

(** [session.commit()]: the pending objects are written in one
    transaction; on an error nothing of it is persisted. *)
Definition commit (w : World) (ps : list Pending) : World * result unit :=
  match flush (db w) ps with
  | Ok d' => (set_db d' w, Ok tt)
  | Raise e => (w, Raise e)
  end.

(** [session.get(Conversation, cid)] *)
Definition session_get (w : World) (cid : uuid) : option Conversation.t :=
  conversations (db w) !! cid.

(** [session.refresh(message)]: the row is read back by primary key. *)
Definition refresh_message (w : World) (m : Message.t) : result Message.t :=
  match list_find (λ r, Message.id r = Message.id m) (messages (db w)) with
  | Some (_, r) => Ok r
  | None => Raise InvalidRequestError
  end.

Definition refresh_conversation (w : World) (c : Conversation.t)
  : result Conversation.t :=
  match conversations (db w) !! Conversation.id c with
  | Some r => Ok r
  | None => Raise InvalidRequestError
  end.

(** ** Conversation store access layer (data-model.md, "Query Patterns") *)

(** [ORDER BY created_at DESC] and [ORDER BY updated_at DESC]. *)
Definition newest_first : relation Message.t :=
  λ m1 m2, Message.created_at m2 ≤ Message.created_at m1.

Definition recent_first : relation Conversation.t :=
  λ c1 c2, Conversation.updated_at c2 ≤ Conversation.updated_at c1.

#[global] Instance newest_first_dec m1 m2 : Decision (newest_first m1 m2).
Proof. unfold newest_first. apply _. Defined.

#[global] Instance recent_first_dec c1 c2 : Decision (recent_first c1 c2).
Proof. unfold recent_first. apply _. Defined.

(** 1. Get User's Conversations *)
Definition get_user_conversations (w : World) (user_id : string)
  : list Conversation.t :=
  merge_sort recent_first
    (filter (λ c, Conversation.user_id c = user_id)
            ((map_to_list (conversations (db w))).*2)).

(** 2. Get Conversation Messages: the [limit] newest rows of the
    conversation, reversed into chronological order. *)
Definition get_conversation_messages (w : World) (conversation_id : uuid)
    (limit : nat) : list Message.t :=
  let statement :=
    take limit
      (merge_sort newest_first
         (filter (λ m, Message.conversation_id m = conversation_id)
                 (messages (db w)))) in
  reverse statement.

(** 3. Add Message to Conversation *)
Definition add_message (w : World) (conversation_id : uuid)
    (role content : string) (tool_calls : option json)
  : World * result Message.t :=
  let '(w, i) := uuid4 w in
  let '(w, now) := utcnow w in
  let message := Message.mk i conversation_id role content tool_calls now in
  let pending := [NewMessage message] in
  let conversation := session_get w conversation_id in
  let '(w, pending) :=
    match conversation with
    | Some _ =>
        let '(w, now) := utcnow w in
        (w, pending ++ [DirtyConversation conversation_id now])
    | None => (w, pending)
    end in
  match commit w pending with
  | (w, Raise e) => (w, Raise e)
  | (w, Ok _) => (w, refresh_message w message)
  end.

(** 4. Create New Conversation *)
Definition create_conversation (w : World) (user_id : string)
    (title : option string) : World * result Conversation.t :=
  let '(w, i) := uuid4 w in
  let '(w, created) := utcnow w in
  let '(w, updated) := utcnow w in
  let conversation := Conversation.mk i user_id title created updated in
  match commit w [NewConversation conversation] with
  | (w, Raise e) => (w, Raise e)
  | (w, Ok _) => (w, refresh_conversation w conversation)
  end.

(** The value of a Python expression of the form [x and (a == b)]: the
    left operand when it is falsy, else the comparison. *)
Inductive PyVal :=
| PyNone
| PyBool (b : bool).

Definition truthy (v : PyVal) : bool :=
  match v with
  | PyNone => false
  | PyBool b => b
  end.

(** Ownership Verification:
    [return conversation and conversation.user_id == user_id] *)
Definition verify_conversation_ownership (w : World) (conversation_id : uuid)
    (user_id : string) : PyVal :=
  match session_get w conversation_id with
  | None => PyNone
  | Some conversation =>
      PyBool (bool_decide (Conversation.user_id conversation = user_id))
  end.

(** The operations of the access layer as one request type, each run
    against the world it finds. *)
Inductive StoreOp :=
| OpGetUserConversations (user_id : string)
| OpGetConversationMessages (conversation_id : uuid) (limit : nat)
| OpAddMessage (conversation_id : uuid) (role content : string)
               (tool_calls : option json)
| OpCreateConversation (user_id : string) (title : option string)
| OpVerifyOwnership (conversation_id : uuid) (user_id : string).

Definition exec_op (w : World) (op : StoreOp) : World :=
  match op with
  | OpGetUserConversations u => let _ := get_user_conversations w u in w
  | OpGetConversationMessages cid n =>
      let _ := get_conversation_messages w cid n in w
  | OpAddMessage cid r c tc => fst (add_message w cid r c tc)
  | OpCreateConversation u t => fst (create_conversation w u t)
  | OpVerifyOwnership cid u => let _ := verify_conversation_ownership w cid u in w
  end.

(** The rows of one conversation in storage (insertion) order. *)
Definition conversation_log (w : World) (conversation_id : uuid)
  : list Message.t :=
  filter (λ m, Message.conversation_id m = conversation_id) (messages (db w)).

(** ** The turn handler (research.md, "Stateless Request Handling")

    The handler goes through [chat_service]; its [get_recent_messages]
    and [add_message] are the query patterns 2 and 3 of the access
    layer above. *)

(** Modelled from the spec: [chat_service.get_or_create_conversation] is
    not part of the sources at hand. A supplied conversation id is
    fetched scoped to the caller and answered with "not found" when the
    ownership test of the access layer is not passed; without an id a
    new conversation owned by the caller is created. *)
Definition get_or_create_conversation (w : World) (user_id : string)
    (conversation_id : option uuid) : World * result Conversation.t :=
  match conversation_id with
  | Some cid =>
      if truthy (verify_conversation_ownership w cid user_id)
      then match session_get w cid with
           | Some conversation => (w, Ok conversation)
           | None => (w, Raise NotFound)
           end
      else (w, Raise NotFound)
  | None => create_conversation w user_id None
  end.

(** What the agent returns: the reply and the record of tool calls. *)
Record AgentResponse := mkAgentResponse {
  response_content : string;
  response_tool_calls : option json
}.

(** An element of the list [history + [message]] handed to the agent:
    a stored message or the text of the new one. *)
Inductive ContextItem :=
| Stored (m : Message.t)
| NewText (text : string).

(** [agent_service.run(context, user_id)]: the reasoning step with its
    tools. It works on the world it is called in and either returns a
    response or raises. *)
Definition AgentRun : Type :=
  World → list ContextItem → string → World * result AgentResponse.

Definition context_limit : nat := 20.

Definition handle_chat (run : AgentRun) (w : World) (user_id message : string)
    (conversation_id : option uuid) : World * result AgentResponse :=
  (* 1. Get or create conversation *)
  match get_or_create_conversation w user_id conversation_id with
  | (w, Raise e) => (w, Raise e)
  | (w, Ok conversation) =>
      let cid := Conversation.id conversation in
      (* 2. Load recent messages (context) *)
      let history := get_conversation_messages w cid context_limit in
      (* 3. Store user message *)
      match add_message w cid "user" message None with
      | (w, Raise e) => (w, Raise e)
      | (w, Ok _) =>
          (* 4. Run agent with context *)
          match run w ((Stored <$> history) ++ [NewText message]) user_id with
          | (w, Raise e) => (w, Raise e)
          | (w, Ok response) =>
              (* 5. Store assistant response *)
              match add_message w cid "assistant" (response_content response)
                      (response_tool_calls response) with
              | (w, Raise e) => (w, Raise e)
              | (w, Ok _) =>
                  (* 6. Return response *)
                  (w, Ok response)
              end
          end
      end
  end.

(** ** [add_message] statement by statement

    The same function with one transition per statement, so that the
    persisted state can be inspected between statements and two requests
    can be interleaved on one database. *)

Inductive AddMessagePc :=
| AtConstruct                         (* message = Message(...) *)
| AtSessionAdd (message : Message.t)  (* session.add(message) *)
| AtSessionGet (message : Message.t)  (* conversation = session.get(...) *)
| AtTouch (message : Message.t) (conversation : option Conversation.t)
                                      (* if conversation: ... *)
| AtCommit (message : Message.t)      (* session.commit() *)
| AtRefresh (message : Message.t)     (* session.refresh(message) *)
| Returned (r : result Message.t).

(** A running call: its arguments, the pending objects of its session
    and the statement it is at. *)
Record Request := mkRequest {
  req_conversation_id : uuid;
  req_role : string;
  req_content : string;
  req_tool_calls : option json;
  req_pending : list Pending;
  req_pc : AddMessagePc
}.

Definition start_request (conversation_id : uuid) (role content : string)
    (tool_calls : option json) : Request :=
  mkRequest conversation_id role content tool_calls [] AtConstruct.

Definition goto (r : Request) (pending : list Pending) (pc : AddMessagePc)
  : Request :=
  mkRequest (req_conversation_id r) (req_role r) (req_content r)
            (req_tool_calls r) pending pc.

Definition add_message_step (w : World) (r : Request) : World * Request :=
  match req_pc r with
  | AtConstruct =>
      let '(w, i) := uuid4 w in
      let '(w, now) := utcnow w in
      (w, goto r (req_pending r)
            (AtSessionAdd (Message.mk i (req_conversation_id r) (req_role r)
                             (req_content r) (req_tool_calls r) now)))
  | AtSessionAdd m =>
      (w, goto r (req_pending r ++ [NewMessage m]) (AtSessionGet m))
  | AtSessionGet m =>
      (w, goto r (req_pending r)
            (AtTouch m (session_get w (req_conversation_id r))))
  | AtTouch m (Some _) =>
      let '(w, now) := utcnow w in
      (w, goto r (req_pending r ++ [DirtyConversation (req_conversation_id r) now])
            (AtCommit m))
  | AtTouch m None => (w, goto r (req_pending r) (AtCommit m))
  | AtCommit m =>
      match commit w (req_pending r) with
      | (w, Raise e) => (w, goto r [] (Returned (Raise e)))
      | (w, Ok _) => (w, goto r [] (AtRefresh m))
      end
  | AtRefresh m => (w, goto r [] (Returned (refresh_message w m)))
  | Returned _ => (w, r)
  end.

Fixpoint run_steps (n : nat) (w : World) (r : Request) : World * Request :=
  match n with
  | 0 => (w, r)
  | S n' => let '(w', r') := add_message_step w r in run_steps n' w' r'
  end.

(** Two requests on one database; the schedule names, step by step, the
    request that moves ([false] the first, [true] the second). *)
Fixpoint interleave (schedule : list bool) (w : World) (r1 r2 : Request)
  : World * Request * Request :=
  match schedule with
  | [] => (w, r1, r2)
  | false :: rest =>
      let '(w', r1') := add_message_step w r1 in interleave rest w' r1' r2
  | true :: rest =>
      let '(w', r2') := add_message_step w r2 in interleave rest w' r1 r2'
  end.

(** The recency marker of the parent reflects a stored message when it
    is not older than the message. *)
Definition reflects (d : Database) (m : Message.t) : Prop :=
  ∃ c, conversations d !! Message.conversation_id m = Some c
       ∧ Message.created_at m ≤ Conversation.updated_at c.

Definition reflectsb (d : Database) (m : Message.t) : bool :=
  match conversations d !! Message.conversation_id m with
  | Some c => bool_decide (Message.created_at m ≤ Conversation.updated_at c)
  | None => false
  end.

(** ** Turn pairing *)

(** Every user message of a log is directly followed by an assistant
    message. *)
Fixpoint turn_paired (log : list Message.t) : bool :=
  match log with
  | [] => true
  | m :: rest =>
      (if bool_decide (Message.role m = "user")
       then match rest with
            | next :: _ => bool_decide (Message.role next = "assistant")
            | [] => false
            end
       else true)
      && turn_paired rest
  end.

(** ** Tool calls (frontend/types/chat.ts) *)

Inductive ToolName :=
| add_task
| list_tasks
| complete_task
| delete_task
| update_task.

(** [input] and [output] are [Record<string, unknown>]: objects with
    arbitrary string keys. *)
Record ToolCall := mkToolCall {
  tool : ToolName;
  input : gmap string json;
  output : option (gmap string json)
}.

(** ** Tool registry

    The tools and their dispatch are code of the backend
    ([mcp/tools.py], [agent_service.py]) that is not part of the sources
    at hand: research.md gives two signatures with the body [pass].
    Everything in this module is therefore modelled from section 4.1 of
    the specification, and says so. *)

Module ToolRegistry.

(** Modelled from the spec: the typed failures of a tool, "a typed
    failure ([NotFound], [ValidationFailed], [Unauthorized],
    [Unavailable])". *)
Inductive Failure :=
| NotFound
| ValidationFailed
| Unauthorized
| Unavailable.

(** Modelled from the spec: the success payloads, "created record,
    filtered list, updated record, deletion acknowledgement", or a
    typed failure. *)
Inductive Output :=
| Created (t : Task.t)
| Listed (ts : list Task.t)
| Updated (t : Task.t)
| Deleted (t : Task.t)
| Failed (f : Failure).

(** Modelled from the spec: the declared input fields of a tool, all of
    type string, each required or optional. The first two are the
    signatures [add_task(title: str, description: str = None)] and
    [list_tasks(filter: str = "all")] of research.md; the signatures of
    the three other tools are not part of the sources at hand: the
    lookup tools take the description of the task they look for as
    [title], and [update_task] the new values besides. No schema has a
    field for the acting user ("never accepted as part of the tool's
    declared input schema"; research.md: "Tools must not accept user_id
    as parameter"). *)
Definition schema (t : ToolName) : list (string * bool) :=
  match t with
  | add_task => [("title", true); ("description", false)]
  | list_tasks => [("filter", false)]
  | complete_task => [("title", true)]
  | delete_task => [("title", true)]
  | update_task =>
      [("title", true); ("new_title", false); ("description", false)]
  end.

(** Modelled from the spec: the names of the declared fields. *)
Definition declared (t : ToolName) : list string := (schema t).*1.

(** Modelled from the spec: the names of the required fields. *)
Definition required (t : ToolName) : list string :=
  (filter (λ f, f.2 = true) (schema t)).*1.

(** Modelled from the spec: the one field type of the schemas. *)
Definition is_string (v : json) : Prop :=
  match v with JStr _ => True | _ => False end.

#[global] Instance is_string_dec v : Decision (is_string v).
Proof. destruct v; simpl; apply _. Defined.

(** Modelled from the spec: the validation of a tool input is not part
    of the sources at hand. "Unknown or mistyped fields fail validation
    before execution", and so does a missing required field. *)
Definition valid_input (t : ToolName) (i : gmap string json) : Prop :=
  map_Forall (λ k v, k ∈ declared t ∧ is_string v) i
  ∧ Forall (λ k, is_Some (i !! k)) (required t).

#[global] Instance valid_input_dec t i : Decision (valid_input t i).
Proof. unfold valid_input. apply _. Defined.

(** Modelled from the spec: the value of a string field of an input. *)
Definition field (i : gmap string json) (k : string) : option string :=
  match i !! k with
  | Some (JStr s) => Some s
  | _ => None
  end.

(** *** Lookup by description *)

(** Modelled from the spec: what the design leaves open about the
    lookup ("implementers must pick and document a concrete similarity
    metric and threshold"). The case folding that makes the exact match
    case-insensitive, the similarity metric and the threshold a
    candidate has to exceed are parameters here. *)
Record MatchPolicy := mkMatchPolicy {
  fold : string → string;
  similarity : string → string → nat;
  threshold : nat
}.

(** Modelled from the spec: "exact case-insensitive title match". *)
Definition exact (p : MatchPolicy) (description : string) (t : Task.t)
  : Prop :=
  fold p (Task.title t) = fold p description.

(** Modelled from the spec: the similarity of a task to a description,
    and "above a fixed similarity threshold". *)
Definition score (p : MatchPolicy) (description : string) (t : Task.t) : nat :=
  similarity p description (Task.title t).

(** Modelled from the spec: a candidate above the threshold. *)
Definition above (p : MatchPolicy) (description : string) (t : Task.t) : Prop :=
  threshold p < score p description t.

#[global] Instance exact_dec p d t : Decision (exact p d t).
Proof. unfold exact. apply _. Defined.

#[global] Instance above_dec p d t : Decision (above p d t).
Proof. unfold above. apply _. Defined.

(** Modelled from the spec: the lookup of the complete and delete tools
    is not part of the sources at hand. "Exact case-insensitive title
    match first; if none, a single best fuzzy match above a fixed
    similarity threshold; if multiple candidates tie above threshold,
    or none reach it, return [NotFound] rather than guessing: ambiguity
    is surfaced, never silently resolved." One exact match is taken;
    several exact matches are an ambiguity and nothing is taken;
    without an exact match the candidates above the threshold are
    ranked, and the best one is taken when no other candidate ties with
    it; otherwise nothing is found. *)
Definition find_task (p : MatchPolicy) (description : string)
    (candidates : list Task.t) : option Task.t :=
  match filter (exact p description) candidates with
  | [t] => Some t
  | _ :: _ :: _ => None
  | [] =>
      let ranked := filter (above p description) candidates in
      let best := max_list (score p description <$> ranked) in
      match filter (λ t, score p description t = best) ranked with
      | [t] => Some t
      | _ => None
      end
  end.

(** *** The five tools, run for the acting user

    Modelled from the spec throughout: a tool is "a named,
    schema-validated operation that mutates or reads task data on
    behalf of a specific user", run "with server-injected identity";
    its side effect is "exactly the declared data mutation; no hidden
    writes, no conversation-state writes". The tools therefore read and
    write the task rows of the acting user only. *)

(** Modelled from the spec: the task table replaced, all else kept. *)
Definition set_tasks (ts : list Task.t) (w : World) : World :=
  mkWorld (mkDatabase (conversations (db w)) (messages (db w)) ts)
          (clock w) (next_uuid w).

(** Modelled from the spec: the task rows of a user. *)
Definition owned_by (user : string) (t : Task.t) : Prop :=
  Task.user_id t = user.

#[global] Instance owned_by_dec u t : Decision (owned_by u t).
Proof. unfold owned_by. apply _. Defined.

(** Modelled from the spec: "the user's task data". *)
Definition own_tasks (user : string) (w : World) : list Task.t :=
  filter (owned_by user) (tasks (db w)).

(** Modelled from the spec: the row of a task found for a user. *)
Definition is_row (user : string) (t x : Task.t) : Prop :=
  Task.user_id x = user ∧ Task.id x = Task.id t.

#[global] Instance is_row_dec u t x : Decision (is_row u t x).
Proof. unfold is_row. apply _. Defined.

(** Modelled from the spec: a key for a new task row. *)
Definition next_task_id (ts : list Task.t) : nat :=
  S (max_list (Task.id <$> ts)).

(** Modelled from the spec: [add_task] is not part of the sources at
    hand (research.md: "Create a new task"). The created record belongs
    to the acting user. *)
Definition run_add_task (user : string) (i : gmap string json) (w : World)
  : World * Output :=
  match field i "title" with
  | None => (w, Failed ValidationFailed)
  | Some title =>
      let '(w, now) := utcnow w in
      let t := Task.mk (next_task_id (tasks (db w))) user title
                       (field i "description") false now in
      (set_tasks (tasks (db w) ++ [t]) w, Created t)
  end.

(** Modelled from the spec: [list_tasks] is not part of the sources at
    hand (research.md: "List user's tasks"). It answers with the
    filtered list of the acting user's tasks. *)
Definition run_list_tasks (user : string) (i : gmap string json) (w : World)
  : World * Output :=
  match default "all" (field i "filter") with
  | "all" => (w, Listed (own_tasks user w))
  | "pending" =>
      (w, Listed (filter (λ t, Task.completed t = false) (own_tasks user w)))
  | "completed" =>
      (w, Listed (filter (λ t, Task.completed t = true) (own_tasks user w)))
  | _ => (w, Failed ValidationFailed)
  end.

(** Modelled from the spec: the update of the one row found. *)
Definition rewrite_row (user : string) (t : Task.t) (f : Task.t → Task.t)
    (w : World) : World :=
  set_tasks ((λ x, if decide (is_row user t x) then f x else x)
               <$> tasks (db w)) w.

(** Modelled from the spec: a task marked as done. *)
Definition mark_completed (t : Task.t) : Task.t :=
  Task.mk (Task.id t) (Task.user_id t) (Task.title t) (Task.description t)
          true (Task.created_at t).

(** Modelled from the spec: [complete_task] is not part of the sources
    at hand. The task is looked up by description among the tasks of
    the acting user; [NotFound] when the lookup finds nothing. *)
Definition run_complete_task (p : MatchPolicy) (user : string)
    (i : gmap string json) (w : World) : World * Output :=
  match field i "title" with
  | None => (w, Failed ValidationFailed)
  | Some description =>
      match find_task p description (own_tasks user w) with
      | None => (w, Failed NotFound)
      | Some t => (rewrite_row user t mark_completed w, Updated (mark_completed t))
      end
  end.

(** Modelled from the spec: [delete_task] is not part of the sources at
    hand. The task is looked up like in [complete_task]. *)
Definition run_delete_task (p : MatchPolicy) (user : string)
    (i : gmap string json) (w : World) : World * Output :=
  match field i "title" with
  | None => (w, Failed ValidationFailed)
  | Some description =>
      match find_task p description (own_tasks user w) with
      | None => (w, Failed NotFound)
      | Some t =>
          (set_tasks (filter (λ x, ¬ is_row user t x) (tasks (db w))) w,
           Deleted t)
      end
  end.

(** Modelled from the spec: the new values of [update_task]. *)
Definition edit (i : gmap string json) (t : Task.t) : Task.t :=
  Task.mk (Task.id t) (Task.user_id t)
          (default (Task.title t) (field i "new_title"))
          (match field i "description" with
           | Some d => Some d
           | None => Task.description t
           end)
          (Task.completed t) (Task.created_at t).

(** Modelled from the spec: [update_task] is not part of the sources at
    hand. The task is looked up like in [complete_task]. *)
Definition run_update_task (p : MatchPolicy) (user : string)
    (i : gmap string json) (w : World) : World * Output :=
  match field i "title" with
  | None => (w, Failed ValidationFailed)
  | Some description =>
      match find_task p description (own_tasks user w) with
      | None => (w, Failed NotFound)
      | Some t => (rewrite_row user t (edit i) w, Updated (edit i t))
      end
  end.

(** Modelled from the spec: what becomes of a user id that the
    reasoning step has put into a tool input. Section 4.1 has unknown
    fields fail validation before execution; section 8 has a forged
    user id "ignored/overridden". The registry is told which of the two
    it does. *)
Inductive EmbeddedIdentity :=
| FailsValidation
| Overridden.

(** Modelled from the spec: the choices a registry is built with. *)
Record Registry := mkRegistry {
  matching : MatchPolicy;
  embedded_identity : EmbeddedIdentity
}.

(** Modelled from the spec: the input handed to validation and to the
    tool. *)
Definition received (r : Registry) (i : gmap string json)
  : gmap string json :=
  match embedded_identity r with
  | FailsValidation => i
  | Overridden => delete "user_id" i
  end.

(** Modelled from the spec: the dispatch of a requested tool call is
    not part of the sources at hand. The input is validated against
    the schema of the tool, and the tool runs for the user the
    orchestrator passes in ("execute via Tool Registry with
    orchestrator-injected user identity"); the input has no say in
    it. *)
Definition execute_tool (r : Registry) (user : string) (call : ToolCall)
    (w : World) : World * Output :=
  let i := received r (input call) in
  if decide (valid_input (tool call) i) then
    match tool call with
    | add_task => run_add_task user i w
    | list_tasks => run_list_tasks user i w
    | complete_task => run_complete_task (matching r) user i w
    | delete_task => run_delete_task (matching r) user i w
    | update_task => run_update_task (matching r) user i w
    end
  else (w, Failed ValidationFailed).

(** Modelled from the spec: "for each requested tool invocation,
    execute via Tool Registry with orchestrator-injected user identity;
    collect each result (success or typed failure); a failed tool call
    does not abort the turn". *)
Fixpoint execute_all (r : Registry) (user : string) (calls : list ToolCall)
    (w : World) : World * list (ToolCall * Output) :=
  match calls with
  | [] => (w, [])
  | call :: rest =>
      let '(w, out) := execute_tool r user call w in
      let '(w, outs) := execute_all r user rest w in
      (w, (call, out) :: outs)
  end.

(** A case folding for texts in ASCII letters, for the samples. *)
Definition to_lower (c : ascii) : ascii :=
  let n := nat_of_ascii c in
  if (65 <=? n) && (n <=? 90) then ascii_of_nat (n + 32) else c.

Fixpoint lower (s : string) : string :=
  match s with
  | EmptyString => EmptyString
  | String c s' => String (to_lower c) (lower s')
  end.

End ToolRegistry.

(** ** The agent behind [agent_service.run] *)

(** Modelled from the spec: the decision of the reasoning capability,
    "free-text reply and/or zero-or-more tool invocations". *)
Record AgentDecision := mkAgentDecision {
  reply : string;
  requested : list ToolCall
}.

(** Modelled from the spec: the reasoning capability, "an opaque
    capability invoked through a narrow interface"; it answers with a
    decision or fails with [Timeout] or [InvalidResponse]. *)
Definition Reasoner : Type := list ContextItem → result AgentDecision.

(** The names of the tools as frontend/types/chat.ts spells them. *)
Definition tool_name (t : ToolName) : string :=
  match t with
  | add_task => "add_task"
  | list_tasks => "list_tasks"
  | complete_task => "complete_task"
  | delete_task => "delete_task"
  | update_task => "update_task"
  end.

(** Modelled from the spec: the record of the tool calls of a turn
    ("each invocation: tool name, input payload, output payload or
    failure marker") as a JSON document; its layout is not part of the
    sources at hand. *)
Definition failure_name (f : ToolRegistry.Failure) : string :=
  match f with
  | ToolRegistry.NotFound => "NotFound"
  | ToolRegistry.ValidationFailed => "ValidationFailed"
  | ToolRegistry.Unauthorized => "Unauthorized"
  | ToolRegistry.Unavailable => "Unavailable"
  end.

(** Modelled from the spec: see [failure_name]. *)
Definition encode_task (t : Task.t) : json :=
  JObj [("task_id", JNum (Z.of_nat (Task.id t)));
        ("title", JStr (Task.title t));
        ("completed", JBool (Task.completed t))].

(** Modelled from the spec: see [failure_name]. *)
Definition encode_output (o : ToolRegistry.Output) : json :=
  match o with
  | ToolRegistry.Created t => encode_task t
  | ToolRegistry.Listed ts => JObj [("tasks", JArr (encode_task <$> ts))]
  | ToolRegistry.Updated t => encode_task t
  | ToolRegistry.Deleted t => JObj [("deleted", JNum (Z.of_nat (Task.id t)))]
  | ToolRegistry.Failed f => JObj [("error", JStr (failure_name f))]
  end.

(** Modelled from the spec: see [failure_name]. *)
Definition encode_record (r : ToolCall * ToolRegistry.Output) : json :=
  JObj [("tool", JStr (tool_name (tool r.1)));
        ("input", JObj (map_to_list (input r.1)));
        ("output", encode_output r.2)].

(** Modelled from the spec: [agent_service.run] is not part of the
    sources at hand. The reasoning capability decides on a reply and on
    tool calls; each requested call is executed through the registry for
    the user the handler passes in, and the reply is returned with the
    record of the calls. A failure of the reasoning capability is
    raised to the caller. *)
Definition agent_run (r : ToolRegistry.Registry) (reason : Reasoner)
  : AgentRun :=
  λ w context user_id,
    match reason context with
    | Raise e => (w, Raise e)
    | Ok d =>
        let '(w, records) :=
          ToolRegistry.execute_all r user_id (requested d) w in
        (w, Ok (mkAgentResponse (reply d)
                  (match records with
                   | [] => None
                   | _ => Some (JArr (encode_record <$> records))
                   end)))
    end.

(** ** Chat front end *)

(** Messages as the front end holds them (frontend/types/chat.ts). *)
Inductive MessageRole :=
| role_user
| role_assistant
| role_tool.

Module UiMessage.
Record t := mk {
  id : string;
  role : MessageRole;
  content : string;
  tool_calls : option (list ToolCall);
  created_at : string
}.
End UiMessage.

Record ChatResponse := mkChatResponse {
  chat_conversation_id : string;
  chat_message : UiMessage.t;
  chat_tool_calls : option (list ToolCall)
}.

(** *** ChatInput

    A text is a string of one-byte characters, each standing for one
    code unit of the text in the browser. *)

Module ChatInput.

Definition maxLength : nat := 2000.

(** [value.slice(0, n)] *)
Definition slice0 (n : nat) (value : string) : string :=
  String.substring 0 n value.

(** White space of [String.prototype.trim] among the characters of one
    byte: tab, line feed, vertical tab, form feed, carriage return,
    space and no-break space. *)
Definition is_whitespace (c : ascii) : bool :=
  let n := nat_of_ascii c in
  ((9 <=? n) && (n <=? 13)) || (n =? 32) || (n =? 160).

Fixpoint trim_start (s : string) : string :=
  match s with
  | EmptyString => EmptyString
  | String c s' => if is_whitespace c then trim_start s' else s
  end.

Fixpoint trim_end (s : string) : string :=
  match s with
  | EmptyString => EmptyString
  | String c s' =>
      match trim_end s' with
      | EmptyString => if is_whitespace c then EmptyString else String c EmptyString
      | rest => String c rest
      end
  end.

Definition trim (s : string) : string := trim_end (trim_start s).

(** [isLoading] and [disabled] as the parent passes them at the time of
    an event. *)
Record Props := mkProps {
  isLoading : bool;
  disabled : bool
}.

Inductive QuickAction :=
| ShowTasks
| AddTask
| Help.

Definition label (a : QuickAction) : string :=
  match a with
  | ShowTasks => "Show tasks"
  | AddTask => "Add task"
  | Help => "Help"
  end.

(** The component after an event: the text of the textarea and what
    was handed to [onSend], if anything. *)
Definition Effect : Type := string * option string.

(** [onChange={(e) => setMessage(e.target.value.slice(0, 2000))}] *)
Definition onChange (value : string) : Effect :=
  (slice0 maxLength value, None).

(** [onClick={() => { setMessage(action.label); ... }}] *)
Definition onQuickAction (a : QuickAction) : Effect :=
  (label a, None).

Definition handleSubmit (p : Props) (message : string) : Effect :=
  let trimmedMessage := trim message in
  if negb (String.eqb trimmedMessage "") && negb (isLoading p)
     && negb (disabled p)
  then ("", Some trimmedMessage)
  else (message, None).

Definition handleKeyDown (p : Props) (key : string) (shiftKey : bool)
    (message : string) : Effect :=
  if String.eqb key "Enter" && negb shiftKey then handleSubmit p message
  else (message, None).

Inductive Event :=
| Change (value : string)
| Click (a : QuickAction)
| KeyDown (key : string) (shiftKey : bool)
| Send.

(** The handler an event reaches. The [disabled] attributes of the
    textarea and of the buttons only narrow down when an event can
    occur. *)
Definition step (p : Props) (e : Event) (message : string) : Effect :=
  match e with
  | Change value => onChange value
  | Click a => onQuickAction a
  | KeyDown key shiftKey => handleKeyDown p key shiftKey message
  | Send => handleSubmit p message
  end.

(** A session with the component: the text after the events and the
    messages handed to [onSend], in order. *)
Fixpoint run (events : list (Props * Event)) (message : string)
  : string * list string :=
  match events with
  | [] => (message, [])
  | (p, e) :: rest =>
      let '(message', sent) := step p e message in
      let '(final, later) := run rest message' in
      (final, option_list sent ++ later)
  end.

End ChatInput.

(** *** ChatPage and ChatContainer *)

(** [ChatState] of frontend/types/chat.ts, the state both components
    keep in their hooks. *)
Record ChatState := mkChatState {
  ui_messages : list UiMessage.t;
  ui_conversationId : option string;
  ui_isLoading : bool;
  ui_error : option string
}.

(** What a rejected promise carries: an [Error] with its message, or
    some other value. *)
Inductive Thrown :=
| ErrorObject (message : string)
| OtherValue.

(** The way [api.chat.sendMessage] settles. *)
Inductive Settled :=
| Fulfilled (response : ChatResponse)
| Rejected (err : Thrown).

(** A reading of [Date.now()] with the matching
    [new Date().toISOString()]. *)
Record Instant := mkInstant {
  now_ms : nat;
  iso : string
}.

Inductive Toast :=
| ToastSuccess (text : string)
| ToastError (text : string).

(** The template literal [`${prefix}${n}`] for a number [n]. *)
Definition template (prefix : string) (n : nat) : string :=
  prefix +:+ NilZero.string_of_uint (Nat.to_uint n).

(** [names.join(', ')] *)
Fixpoint join (names : list string) : string :=
  match names with
  | [] => ""
  | [name] => name
  | name :: rest => name +:+ ", " +:+ join rest
  end.

(** A string or [null] in a condition: [null] and the empty string are
    falsy. *)
Definition falsy (v : option string) : bool :=
  match v with
  | None => true
  | Some s => String.eqb s ""
  end.

Definition keep_except (temp : UiMessage.t) (prev : list UiMessage.t)
  : list UiMessage.t :=
  filter (λ m, UiMessage.id m ≠ UiMessage.id temp) prev.

Module ChatPage.

Definition handleSendMessage (user : option string) (content : string)
    (started : Instant) (outcome : Settled) (settled : Instant)
    (s : ChatState) : ChatState * list Toast :=
  match user with
  | None => (s, [])
  | Some _ =>
      let conversationId := ui_conversationId s in
      let tempUserMessage :=
        UiMessage.mk (template "temp-" (now_ms started)) role_user content None
                     (iso started) in
      (* setMessages((prev) => [...prev, tempUserMessage]);
         setIsLoading(true); setError(null) *)
      let s := mkChatState (ui_messages s ++ [tempUserMessage])
                           (ui_conversationId s) true None in
      match outcome with
      | Fulfilled response =>
          let s :=
            if falsy conversationId
            then mkChatState (ui_messages s)
                             (Some (chat_conversation_id response))
                             (ui_isLoading s) (ui_error s)
            else s in
          let s :=
            mkChatState
              (keep_except tempUserMessage (ui_messages s)
               ++ [UiMessage.mk (template "user-" (now_ms settled)) role_user
                                content None (iso settled);
                   chat_message response])
              (ui_conversationId s) (ui_isLoading s) (ui_error s) in
          let toasts :=
            match chat_tool_calls response with
            | Some (tc :: tcs) =>
                [ToastSuccess ("Action completed: "
                               +:+ join (tool_name ∘ tool <$> tc :: tcs))]
            | _ => []
            end in
          (* finally *)
          (mkChatState (ui_messages s) (ui_conversationId s) false
                       (ui_error s), toasts)
      | Rejected err =>
          let errorMessage :=
            match err with
            | ErrorObject message => message
            | OtherValue => "Failed to send message"
            end in
          let s := mkChatState (ui_messages s) (ui_conversationId s)
                               (ui_isLoading s) (Some errorMessage) in
          let s := mkChatState (keep_except tempUserMessage (ui_messages s))
                               (ui_conversationId s) (ui_isLoading s)
                               (ui_error s) in
          (* finally *)
          (mkChatState (ui_messages s) (ui_conversationId s) false
                       (ui_error s), [ToastError errorMessage])
      end
  end.

End ChatPage.

Module ChatContainer.

Definition handleSendMessage (user : option string) (content : string)
    (started : Instant) (outcome : Settled) (settled : Instant)
    (s : ChatState) : ChatState * list Toast :=
  match user with
  | None => (s, [])
  | Some _ =>
      let conversationId := ui_conversationId s in
      let tempUserMessage :=
        UiMessage.mk (template "temp-" (now_ms started)) role_user content None
                     (iso started) in
      let s := mkChatState (ui_messages s ++ [tempUserMessage])
                           (ui_conversationId s) true None in
      match outcome with
      | Fulfilled response =>
          let s :=
            if falsy conversationId
            then mkChatState (ui_messages s)
                             (Some (chat_conversation_id response))
                             (ui_isLoading s) (ui_error s)
            else s in
          let s :=
            mkChatState
              (keep_except tempUserMessage (ui_messages s)
               ++ [UiMessage.mk (template "user-" (now_ms settled)) role_user
                                content None (iso settled);
                   chat_message response])
              (ui_conversationId s) (ui_isLoading s) (ui_error s) in
          let toasts :=
            match chat_tool_calls response with
            | Some (tc :: tcs) =>
                [ToastSuccess ("Action completed: "
                               +:+ join (tool_name ∘ tool <$> tc :: tcs))]
            | _ => []
            end in
          (mkChatState (ui_messages s) (ui_conversationId s) false
                       (ui_error s), toasts)
      | Rejected err =>
          let errorMessage :=
            match err with
            | ErrorObject message => message
            | OtherValue => "Failed to send message"
            end in
          let s := mkChatState (ui_messages s) (ui_conversationId s)
                               (ui_isLoading s) (Some errorMessage) in
          let s := mkChatState (keep_except tempUserMessage (ui_messages s))
                               (ui_conversationId s) (ui_isLoading s)
                               (ui_error s) in
          (mkChatState (ui_messages s) (ui_conversationId s) false
                       (ui_error s), [ToastError errorMessage])
      end
  end.

End ChatContainer.

(** ** Predicates of the statements *)


(** The keys handed out so far lie below the next one. *)
Definition uuids_fresh (w : World) : Prop :=
  Forall (λ m, Message.id m < next_uuid w) (messages (db w)).

(** The message [add_message] constructs and the world it leaves when
    the commit goes through. *)
Definition appended (w : World) (cid : uuid) (role content : string)
    (tc : option json) : Message.t :=
  Message.mk (next_uuid w) cid role content tc (clock w).

Definition after_append (w : World) (cid : uuid) (c : Conversation.t)
    (m : Message.t) : World :=
  mkWorld
    (mkDatabase
       (<[cid := Conversation.set_updated_at (S (clock w)) c]>
          (conversations (db w)))
       (messages (db w) ++ [m]) (tasks (db w)))
    (S (S (clock w))) (S (next_uuid w)).

(** Every conversation is filed under its own key. *)
Definition keys_match (w : World) : Prop :=
  map_Forall (λ k c, Conversation.id c = k) (conversations (db w)).

Definition wf (w : World) : Prop := uuids_fresh w ∧ keys_match w.

(** The agent leaves the conversation tables alone and does not rewind
    the source of keys. *)
Definition keeps_store (run : AgentRun) : Prop :=
  ∀ w context user_id,
    messages (db (run w context user_id).1) = messages (db w)
    ∧ conversations (db (run w context user_id).1) = conversations (db w)
    ∧ next_uuid w ≤ next_uuid (run w context user_id).1.

(** Steps 5 and 6 of the turn, given what the agent came back with. *)
Definition store_reply (cid : uuid) (r : World * result AgentResponse)
  : World * result AgentResponse :=
  match r with
  | (w, Raise e) => (w, Raise e)
  | (w, Ok response) =>
      match add_message w cid "assistant" (response_content response)
              (response_tool_calls response) with
      | (w, Raise e) => (w, Raise e)
      | (w, Ok _) => (w, Ok response)
      end
  end.




(** A text within the limit of the chat input, and a text that can be
    handed on as a message. *)
Definition within (s : string) : Prop :=
  String.length s ≤ ChatInput.maxLength.

Definition sendable (s : string) : Prop :=
  0 < String.length s ∧ String.length s ≤ ChatInput.maxLength.

(** An id made by the template of the provisional message. *)
Definition provisional (id : string) : Prop :=
  ∃ n, id = template "temp-" n.

(** ** Sample data *)

Definition alice_conversation : Conversation.t :=
  Conversation.mk 7 "alice" None 0 0.

Definition bob_conversation : Conversation.t :=
  Conversation.mk 8 "bob" (Some "groceries") 1 1.

Definition sample_world : World :=
  mkWorld
    (mkDatabase (<[7 := alice_conversation]> (<[8 := bob_conversation]> ∅))
                [] [])
    10 100.

(** An agent whose reasoning step times out, and one that answers
    without calling a tool. *)
Definition timeout_run : AgentRun := λ w _ _, (w, Raise Timeout).

Definition silent_run : AgentRun :=
  λ w _ _, (w, Ok (mkAgentResponse "Done." None)).

(** A text of [n] times the character [c]. *)
Fixpoint repeat_char (c : ascii) (n : nat) : string :=
  match n with
  | 0 => EmptyString
  | S n' => String c (repeat_char c n')
  end.

Definition idle : ChatInput.Props := ChatInput.mkProps false false.

(** A similarity metric for the samples: the number of leading
    characters two texts share, case ignored. *)
Fixpoint common_prefix (s1 s2 : string) : nat :=
  match s1, s2 with
  | String c1 r1, String c2 r2 =>
      if Ascii.eqb (ToolRegistry.to_lower c1) (ToolRegistry.to_lower c2)
      then S (common_prefix r1 r2) else 0
  | _, _ => 0
  end.

Definition sample_policy : ToolRegistry.MatchPolicy :=
  ToolRegistry.mkMatchPolicy ToolRegistry.lower common_prefix 2.



Definition milk : Task.t := Task.mk 1 "alice" "Buy milk" None false 3.
Definition call : Task.t := Task.mk 2 "alice" "Call John" None false 4.


(** ** More of the store: clocks and orders *)

#[global] Instance recent_first_total : Total recent_first.
Proof. intros c1 c2. unfold recent_first. lia. Qed.

#[global] Instance recent_first_trans : Transitive recent_first.
Proof. intros c1 c2 c3. unfold recent_first. lia. Qed.

(** The rows of the conversations table. *)
Definition conversation_rows (w : World) : list Conversation.t :=
  (map_to_list (conversations (db w))).*2.

(** Every instant stored so far was read from the clock before now. *)
Definition timestamps_past (w : World) : Prop :=
  Forall (λ m, Message.created_at m < clock w) (messages (db w))
  ∧ map_Forall (λ _ c, Conversation.updated_at c < clock w)
               (conversations (db w)).

(** What the schema promises: message keys are distinct, every message
    points to a conversation that exists, and every conversation is
    filed under its own key. *)
Definition integrity (d : Database) : Prop :=
  NoDup (message_ids d)
  ∧ Forall (λ m, is_Some (conversations d !! Message.conversation_id m))
           (messages d)
  ∧ map_Forall (λ k c, Conversation.id c = k) (conversations d).

(** The agent does not turn the clock back. *)
Definition keeps_clock (run : AgentRun) : Prop :=
  ∀ w context user_id, clock w ≤ clock (run w context user_id).1.

(** ** More of the chat input *)

(** [disabled={!message.trim() || isLoading || disabled}] of the send
    button. *)
Definition sendButtonDisabled (p : ChatInput.Props) (message : string) : bool :=
  String.eqb (ChatInput.trim message) ""
  || ChatInput.isLoading p || ChatInput.disabled p.

Fixpoint all_whitespace (s : string) : bool :=
  match s with
  | EmptyString => true
  | String c s' => ChatInput.is_whitespace c && all_whitespace s'
  end.

Definition first_char (s : string) : option ascii :=
  match s with
  | EmptyString => None
  | String c _ => Some c
  end.

Fixpoint last_char (s : string) : option ascii :=
  match s with
  | EmptyString => None
  | String c EmptyString => Some c
  | String _ s' => last_char s'
  end.

(** A text that neither starts nor ends with white space. *)
Definition no_outer_whitespace (s : string) : Prop :=
  (∀ c, first_char s = Some c → ChatInput.is_whitespace c = false)
  ∧ (∀ c, last_char s = Some c → ChatInput.is_whitespace c = false).

Definition busy (p : ChatInput.Props) : Prop :=
  ChatInput.isLoading p = true ∨ ChatInput.disabled p = true.

(** An event that can hand a message on: a press of the send button or
    of Enter without Shift, while the input is neither loading nor
    disabled. *)
Definition may_send (pe : ChatInput.Props * ChatInput.Event) : Prop :=
  ChatInput.isLoading pe.1 = false ∧ ChatInput.disabled pe.1 = false
  ∧ (pe.2 = ChatInput.Send ∨ pe.2 = ChatInput.KeyDown "Enter" false).

#[global] Instance may_send_dec pe : Decision (may_send pe).
Proof.
  unfold may_send. apply and_dec; [apply _|]. apply and_dec; [apply _|].
  apply or_dec.
  - destruct (pe.2); (by left) || (right; discriminate).
  - destruct (pe.2) as [v|a|key shiftKey|];
      try (right; discriminate).
    destruct (decide (key = "Enter")) as [->|Hk];
      [|right; intros [= ?]; done].
    destruct shiftKey; [right; discriminate|by left].
Defined.

(** ** More of ChatPage and ChatContainer

    [handleNewChat] and [loadConversationHistory] read the same in both
    components. *)

(** How a promise settles. *)
Inductive Awaited (A : Type) :=
| Resolves (a : A)
| Rejects (err : Thrown).
Arguments Resolves {A} a.
Arguments Rejects {A} err.

Definition handleNewChat (s : ChatState) : ChatState :=
  mkChatState [] None (ui_isLoading s) None.

(** The component state with the flag of the history load beside it. *)
Definition loadConversationHistory (user : option string)
    (outcome : Awaited (list UiMessage.t)) (s : ChatState)
    (isLoadingHistory : bool) : ChatState * bool :=
  match user with
  | None => (s, isLoadingHistory)
  | Some _ =>
      if falsy (ui_conversationId s) then (s, isLoadingHistory)
      else
        (* setIsLoadingHistory(true); setError(null) *)
        let s := mkChatState (ui_messages s) (ui_conversationId s)
                             (ui_isLoading s) None in
        let s :=
          match outcome with
          | Resolves history =>
              mkChatState history (ui_conversationId s) (ui_isLoading s)
                          (ui_error s)
          | Rejects _ => s
          end in
        (* finally *)
        (s, false)
  end.

(** One use of [handleSendMessage]: the text, how the request settled
    and the two readings of the clock; and how the request for the
    history settles, should the send set it off. *)
Record Exchange := mkExchange {
  ex_content : string;
  ex_started : Instant;
  ex_outcome : Settled;
  ex_settled : Instant;
  ex_history : Awaited (list UiMessage.t)
}.

(** The effect with the dependencies [user] and [conversationId]: after
    a render in which the conversation id differs from the one before,
    it calls [loadConversationHistory]. *)
Definition conversation_effect (user : option string)
    (before : option string) (history : Awaited (list UiMessage.t))
    (s : ChatState) : ChatState :=
  if decide (ui_conversationId s = before) then s
  else (loadConversationHistory user history s false).1.

(** A send with the effect that follows it. *)
Definition send (user : option string) (e : Exchange) (s : ChatState)
  : ChatState :=
  conversation_effect user (ui_conversationId s) (ex_history e)
    (ChatPage.handleSendMessage user (ex_content e) (ex_started e)
       (ex_outcome e) (ex_settled e) s).1.

(** Sends one after the other, each settled before the next. *)
Fixpoint send_all (user : option string) (exchanges : list Exchange)
    (s : ChatState) : ChatState :=
  match exchanges with
  | [] => s
  | e :: rest => send_all user rest (send user e s)
  end.

(** What an exchange leaves in the list in the end. *)
Definition transcript (e : Exchange) : list UiMessage.t :=
  match ex_outcome e with
  | Fulfilled response =>
      [UiMessage.mk (template "user-" (now_ms (ex_settled e))) role_user
                    (ex_content e) None (iso (ex_settled e));
       chat_message response]
  | Rejected _ => []
  end.

Definition reply_not_provisional (e : Exchange) : Prop :=
  match ex_outcome e with
  | Fulfilled response => ¬ provisional (UiMessage.id (chat_message response))
  | Rejected _ => True
  end.

(** ** Tasks page (frontend/app/dashboard/tasks/page.tsx) *)

(** A task as the page and its items read it. *)
Module TaskView.
Record t := mk {
  id : nat;
  title : string;
  description : option string;
  completed : bool;
  created_at : string
}.
End TaskView.

(** The form data of a task. *)
Record TaskCreate := mkTaskCreate {
  tc_title : string;
  tc_description : option string
}.

(** A toast with its description line. *)
Record Notice := mkNotice {
  notice_ok : bool;
  notice_text : string;
  notice_description : option string
}.

Definition error_text (fallback : string) (err : Thrown) : string :=
  match err with
  | ErrorObject message => message
  | OtherValue => fallback
  end.

Module TasksPage.

Inductive Filter :=
| all
| pending
| completed.

Record State := mkState {
  tasks : list TaskView.t;
  isLoadingTasks : bool;
  error : option string;
  isCreating : bool;
  editingTask : option TaskView.t;
  isUpdating : bool;
  activeFilter : Filter
}.

(** What a handler leaves: the state, the toasts shown and the error it
    throws on to its caller, if any. *)
Definition Handled : Type := State * list Notice * option Thrown.

Definition loadTasks (user : option string)
    (outcome : Awaited (list TaskView.t)) (s : State) : Handled :=
  match user with
  | None => (s, [], None)
  | Some _ =>
      match outcome with
      | Resolves taskList =>
          (mkState taskList false None (isCreating s) (editingTask s)
                   (isUpdating s) (activeFilter s), [], None)
      | Rejects err =>
          let errorMessage := error_text "Failed to load tasks" err in
          (mkState (tasks s) false (Some errorMessage) (isCreating s)
                   (editingTask s) (isUpdating s) (activeFilter s),
           [mkNotice false errorMessage None], None)
      end
  end.

Definition handleCreateTask (user : option string) (data : TaskCreate)
    (outcome : Awaited TaskView.t) (s : State) : Handled :=
  match user with
  | None => (s, [], None)
  | Some _ =>
      match outcome with
      | Resolves newTask =>
          (mkState (newTask :: tasks s) (isLoadingTasks s) None false
                   (editingTask s) (isUpdating s) (activeFilter s),
           [mkNotice true "Task created successfully!" (Some (tc_title data))],
           None)
      | Rejects err =>
          let errorMessage := error_text "Failed to create task" err in
          (mkState (tasks s) (isLoadingTasks s) (Some errorMessage) false
                   (editingTask s) (isUpdating s) (activeFilter s),
           [mkNotice false errorMessage None], Some err)
      end
  end.

(** [tasks.map((t) => (t.id === updatedTask.id ? updatedTask : t))] *)
Definition replace_task (updatedTask : TaskView.t) (ts : list TaskView.t)
  : list TaskView.t :=
  (λ t, if decide (TaskView.id t = TaskView.id updatedTask)
        then updatedTask else t) <$> ts.

Definition handleUpdateTask (user : option string) (data : TaskCreate)
    (outcome : Awaited TaskView.t) (s : State) : Handled :=
  match user, editingTask s with
  | Some _, Some _ =>
      match outcome with
      | Resolves updatedTask =>
          (mkState (replace_task updatedTask (tasks s)) (isLoadingTasks s)
                   None (isCreating s) None false (activeFilter s),
           [mkNotice true "Task updated successfully!" (Some (tc_title data))],
           None)
      | Rejects err =>
          let errorMessage := error_text "Failed to update task" err in
          (mkState (tasks s) (isLoadingTasks s) (Some errorMessage)
                   (isCreating s) (editingTask s) false (activeFilter s),
           [mkNotice false errorMessage None], Some err)
      end
  | _, _ => (s, [], None)
  end.

Definition handleToggleComplete (user : option string) (taskId : nat)
    (outcome : Awaited TaskView.t) (s : State) : Handled :=
  match user with
  | None => (s, [], None)
  | Some _ =>
      match outcome with
      | Resolves updatedTask =>
          (mkState (replace_task updatedTask (tasks s)) (isLoadingTasks s)
                   (error s) (isCreating s) (editingTask s) (isUpdating s)
                   (activeFilter s),
           [mkNotice true
              (if TaskView.completed updatedTask then "Task completed!"
               else "Task marked incomplete")
              (Some (TaskView.title updatedTask))],
           None)
      | Rejects err =>
          let errorMessage := error_text "Failed to update task" err in
          (mkState (tasks s) (isLoadingTasks s) (Some errorMessage)
                   (isCreating s) (editingTask s) (isUpdating s)
                   (activeFilter s),
           [mkNotice false errorMessage None], None)
      end
  end.

Definition handleDeleteTask (user : option string) (taskId : nat)
    (outcome : Awaited unit) (s : State) : Handled :=
  match user with
  | None => (s, [], None)
  | Some _ =>
      match outcome with
      | Resolves _ =>
          let deletedTask :=
            list_find (λ t, TaskView.id t = taskId) (tasks s) in
          (mkState (filter (λ t, TaskView.id t ≠ taskId) (tasks s))
                   (isLoadingTasks s) (error s) (isCreating s)
                   (editingTask s) (isUpdating s) (activeFilter s),
           [mkNotice true "Task deleted!"
                     (TaskView.title ∘ snd <$> deletedTask)],
           None)
      | Rejects err =>
          let errorMessage := error_text "Failed to delete task" err in
          (mkState (tasks s) (isLoadingTasks s) (Some errorMessage)
                   (isCreating s) (editingTask s) (isUpdating s)
                   (activeFilter s),
           [mkNotice false errorMessage None], None)
      end
  end.

Definition completedCount (s : State) : nat :=
  length (filter (λ t, TaskView.completed t = true) (tasks s)).

Definition pendingCount (s : State) : nat :=
  length (tasks s) - completedCount s.

Definition shown (f : Filter) (task : TaskView.t) : Prop :=
  match f with
  | pending => TaskView.completed task = false
  | completed => TaskView.completed task = true
  | all => True
  end.

#[global] Instance shown_dec f task : Decision (shown f task).
Proof. destruct f; simpl; apply _. Defined.

Definition filteredTasks (s : State) : list TaskView.t :=
  filter (shown (activeFilter s)) (tasks s).

Definition setFilter (f : Filter) (s : State) : State :=
  mkState (tasks s) (isLoadingTasks s) (error s) (isCreating s)
          (editingTask s) (isUpdating s) f.

End TasksPage.

(** *** TaskItem (its delete dialogue) *)

Module TaskItem.

Record State := mkState {
  isToggling : bool;
  isDeleting : bool;
  showDeleteModal : bool
}.

Definition handleDeleteClick (s : State) : State :=
  mkState (isToggling s) (isDeleting s) true.

(** [handleDeleteConfirm], given whether [onDelete] threw. *)
Definition handleDeleteConfirm (thrown : option Thrown) (s : State)
  : State * option Thrown :=
  (* setIsDeleting(true) *)
  let s := mkState (isToggling s) true (showDeleteModal s) in
  let s :=
    match thrown with
    | None => mkState (isToggling s) (isDeleting s) false
    | Some _ => s
    end in
  (* finally *)
  (mkState (isToggling s) false (showDeleteModal s), thrown).

End TaskItem.

(** ** Authentication state and the layouts that guard on it *)

(** The signed-in user as the layouts read it. *)
Module User.
Record t := mk {
  id : string;
  email : string;
  name : string
}.
End User.

Module AuthProvider.

Record State := mkState {
  user : option User.t;
  isLoading : bool
}.

(** [useState<User | null>(null)], [useState(true)] *)
Definition initial : State := mkState None true.

(** [isAuthenticated: !!user] *)
Definition isAuthenticated (s : State) : bool :=
  match user s with
  | Some _ => true
  | None => false
  end.

Definition checkAuth (outcome : Awaited User.t) (s : State) : State :=
  match outcome with
  | Resolves u => mkState (Some u) false
  | Rejects _ => mkState None false
  end.

(** [signin] and [signup] let a failure of the request through. *)
Definition signin (outcome : Awaited User.t) (s : State)
  : State * option Thrown :=
  match outcome with
  | Resolves u => (mkState (Some u) (isLoading s), None)
  | Rejects err => (s, Some err)
  end.

Definition signup (outcome : Awaited User.t) (s : State)
  : State * option Thrown :=
  match outcome with
  | Resolves u => (mkState (Some u) (isLoading s), None)
  | Rejects err => (s, Some err)
  end.

Definition signout (outcome : Awaited unit) (s : State)
  : State * option Thrown :=
  match outcome with
  | Resolves _ => (mkState None (isLoading s), None)
  | Rejects err => (s, Some err)
  end.

Definition refreshUser (outcome : Awaited User.t) (s : State) : State :=
  match outcome with
  | Resolves u => mkState (Some u) (isLoading s)
  | Rejects _ => mkState None (isLoading s)
  end.

Inductive Event :=
| CheckAuth (outcome : Awaited User.t)
| Signin (outcome : Awaited User.t)
| Signup (outcome : Awaited User.t)
| Signout (outcome : Awaited unit)
| RefreshUser (outcome : Awaited User.t).

Definition step (e : Event) (s : State) : State :=
  match e with
  | CheckAuth o => checkAuth o s
  | Signin o => (signin o s).1
  | Signup o => (signup o s).1
  | Signout o => (signout o s).1
  | RefreshUser o => refreshUser o s
  end.

(** The provider is mounted, which runs [checkAuth], and then serves the
    calls of its children. *)
Definition run (mount : Awaited User.t) (events : list Event) : State :=
  foldl (λ s e, step e s) (checkAuth mount initial) events.

End AuthProvider.

(** What a layout renders. *)
Inductive Rendered :=
| Spinner
| Children.

Module AuthLayout.

(** The effect: [router.push('/dashboard')] or nothing. *)
Definition redirect (s : AuthProvider.State) : option string :=
  if negb (AuthProvider.isLoading s) && AuthProvider.isAuthenticated s
  then Some "/dashboard" else None.

Definition render (s : AuthProvider.State) : Rendered :=
  if AuthProvider.isLoading s then Spinner
  else if AuthProvider.isAuthenticated s then Spinner
  else Children.

End AuthLayout.

Module DashboardLayout.

Definition redirect (s : AuthProvider.State) : option string :=
  if negb (AuthProvider.isLoading s) && negb (AuthProvider.isAuthenticated s)
  then Some "/signin" else None.

Definition render (s : AuthProvider.State) : Rendered :=
  if AuthProvider.isLoading s || negb (AuthProvider.isAuthenticated s)
     || negb (bool_decide (is_Some (AuthProvider.user s)))
  then Spinner else Children.

(** [handleSignout]: the provider state, the toast and the route pushed. *)
Definition handleSignout (outcome : Awaited unit) (s : AuthProvider.State)
  : AuthProvider.State * Notice * option string :=
  match AuthProvider.signout outcome s with
  | (s', None) => (s', mkNotice true "Signed out successfully" None,
                   Some "/signin")
  | (s', Some _) => (s', mkNotice false "Failed to sign out" None, None)
  end.

Definition navItems : list (string * string) :=
  [("Tasks", "/dashboard/tasks"); ("Chat", "/dashboard/chat")].

(** [pathname === item.href || pathname.startsWith(item.href + '/')] *)
Definition isActive (pathname href : string) : bool :=
  String.eqb pathname href || String.prefix (href +:+ "/") pathname.

End DashboardLayout.

(** ** Sample data of the pages *)

Definition greeting : UiMessage.t :=
  UiMessage.mk "8f1c" role_assistant "Hello!" None "2026-02-10T10:00:00Z".

Definition sample_chat : ChatState :=
  mkChatState [greeting] (Some "c1") false None.

Definition answer : ChatResponse :=
  mkChatResponse "c1"
    (UiMessage.mk "9a2d" role_assistant "Done" None "2026-02-10T10:00:06Z")
    None.

(** One send that is answered and one that fails. *)
Definition sample_exchanges : list Exchange :=
  [mkExchange "Add milk" (mkInstant 5 "2026-02-10T10:00:05Z")
              (Fulfilled answer) (mkInstant 6 "2026-02-10T10:00:06Z")
              (Resolves []);
   mkExchange "Add eggs" (mkInstant 7 "2026-02-10T10:00:07Z")
              (Rejected OtherValue) (mkInstant 8 "2026-02-10T10:00:08Z")
              (Resolves [])].

Definition milk_view : TaskView.t :=
  TaskView.mk 1 "Buy milk" None false "2026-02-10T09:00:00Z".

Definition eggs_view : TaskView.t :=
  TaskView.mk 2 "Buy eggs" None false "2026-02-10T09:30:00Z".

Definition sample_tasks_page : TasksPage.State :=
  TasksPage.mkState [milk_view] false None false None false TasksPage.all.

(** * Part II: properties *)

(** ** The flush and the commit *)

Section store_facts.

Implicit Types (d : Database) (w : World) (ps : list Pending).

Lemma substring_length n (s : string) :
  n ≤ String.length s → String.length (String.substring 0 n s) = n.
Proof.
  revert s. induction n as [|n IH]; intros [|c s]; simpl; try done; try lia.
  intros Hn. rewrite IH; [done|lia].
Qed.

Lemma varchar_fits n (s : string) :
  String.length s ≤ n → varchar n s = Ok s.
Proof. intros Hs. unfold varchar. by rewrite bool_decide_eq_true_2. Qed.

Lemma varchar_null_fits n (s : option string) :
  (∀ t, s = Some t → String.length t ≤ n) → varchar_null n s = Ok s.
Proof.
  destruct s as [t|]; [|done]. intros Ht. simpl.
  by rewrite varchar_fits by by apply Ht.
Qed.

Lemma varchar_length n (s s' : string) :
  varchar n s = Ok s' → String.length s' ≤ n.
Proof.
  unfold varchar. case_bool_decide as Hlen; [by intros [= <-]|].
  destruct (only_spaces _); [|done]. intros [= <-].
  rewrite substring_length; lia.
Qed.

Lemma role_value_length (role : string) :
  role ∈ role_values → String.length role ≤ 9.
Proof.
  unfold role_values. intros H.
  repeat (apply elem_of_cons in H as [->|H]; [simpl; lia|]).
  by apply not_elem_of_nil in H.
Qed.

Lemma role_value_fits (role : string) :
  role ∈ role_values → varchar role_limit role = Ok role.
Proof.
  intros H%role_value_length. apply varchar_fits. unfold role_limit. lia.
Qed.

(** A role that passes the CHECK was not cut on the way: the row holds
    the role that was given. *)
Lemma checked_role (role stored : string) :
  varchar role_limit role = Ok stored → stored ∈ role_values →
  stored = role.
Proof.
  unfold varchar. case_bool_decide as Hlen; [by intros [= <-]|].
  destruct (only_spaces _); [|done]. intros [= <-] Hin%role_value_length.
  rewrite substring_length in Hin; unfold role_limit in *; lia.
Qed.

Lemma flush1_new_message d m c :
  Message.role m ∈ role_values →
  Message.id m ∉ message_ids d →
  conversations d !! Message.conversation_id m = Some c →
  flush1 d (NewMessage m)
  = Ok (mkDatabase (conversations d) (messages d ++ [m]) (tasks d)).
Proof.
  intros Hrole Hid Hc. cbn [flush1]. rewrite role_value_fits by done.
  rewrite bool_decide_eq_true_2, bool_decide_eq_false_2, Hc by done.
  by destruct m.
Qed.

Lemma flush1_new_message_inv d m d' :
  flush1 d (NewMessage m) = Ok d' →
  Message.role m ∈ role_values
  ∧ (Message.id m ∉ message_ids d)
  ∧ is_Some (conversations d !! Message.conversation_id m)
  ∧ d' = mkDatabase (conversations d) (messages d ++ [m]) (tasks d).
Proof.
  cbn [flush1].
  destruct (varchar role_limit (Message.role m)) as [role|e] eqn:Hv;
    [|done].
  case_bool_decide as Hrole; [|done].
  case_bool_decide as Hid; [done|].
  destruct (conversations d !! Message.conversation_id m) as [c|] eqn:Hc;
    [|done].
  intros [= <-]. apply checked_role in Hv as ->; [|done].
  split_and!; [done|done|by eexists|]. by destruct m.
Qed.

Lemma flush1_new_message_fails d m :
  Message.role m ∉ role_values →
  ∃ e, flush1 d (NewMessage m) = Raise e.
Proof.
  intros Hrole.
  destruct (flush1 d (NewMessage m)) as [d'|e] eqn:Hf; [|by exists e].
  by apply flush1_new_message_inv in Hf as (? & _).
Qed.

Lemma flush1_new_conversation_inv d c d' :
  flush1 d (NewConversation c) = Ok d' →
  ∃ row,
    d' = mkDatabase (<[Conversation.id c := row]> (conversations d))
                    (messages d) (tasks d)
    ∧ conversations d !! Conversation.id c = None
    ∧ Conversation.id row = Conversation.id c
    ∧ varchar user_id_limit (Conversation.user_id c)
      = Ok (Conversation.user_id row)
    ∧ varchar_null title_limit (Conversation.title c)
      = Ok (Conversation.title row)
    ∧ Conversation.created_at row = Conversation.created_at c
    ∧ Conversation.updated_at row = Conversation.updated_at c.
Proof.
  cbn [flush1].
  destruct (varchar user_id_limit (Conversation.user_id c)) as [u|e];
    [|done].
  destruct (varchar_null title_limit (Conversation.title c)) as [t|e];
    [|done].
  destruct (conversations d !! Conversation.id c) eqn:Hc; [done|].
  intros [= <-]. by eexists.
Qed.

Lemma flush1_new_conversation d c :
  String.length (Conversation.user_id c) ≤ user_id_limit →
  (∀ t, Conversation.title c = Some t → String.length t ≤ title_limit) →
  conversations d !! Conversation.id c = None →
  flush1 d (NewConversation c)
  = Ok (mkDatabase (<[Conversation.id c := c]> (conversations d))
                   (messages d) (tasks d)).
Proof.
  intros Hu Ht Hc. cbn [flush1].
  rewrite varchar_fits, varchar_null_fits, Hc by done. by destruct c.
Qed.

Lemma flush1_messages d p d' :
  flush1 d p = Ok d' →
  messages d' = messages d
  ∨ ∃ m, p = NewMessage m ∧ messages d' = messages d ++ [m].
Proof.
  destruct p as [c|m|cid now].
  - intros (row & -> & _)%flush1_new_conversation_inv. by left.
  - intros (_ & _ & _ & ->)%flush1_new_message_inv. right. by exists m.
  - simpl. destruct (conversations d !! cid); [|done].
    intros [= <-]. by left.
Qed.

Lemma flush1_tasks d p d' : flush1 d p = Ok d' → tasks d' = tasks d.
Proof.
  destruct p as [c|m|cid now].
  - by intros (row & -> & _)%flush1_new_conversation_inv.
  - by intros (_ & _ & _ & ->)%flush1_new_message_inv.
  - simpl. destruct (conversations d !! cid); [|done]. by intros [= <-].
Qed.

Lemma flush_prefix d ps d' :
  flush d ps = Ok d' → messages d `prefix_of` messages d'.
Proof.
  revert d. induction ps as [|p ps IH]; intros d; simpl.
  - by intros [= <-].
  - destruct (flush1 d p) as [d1|e] eqn:Hp; [|done].
    intros Hps. apply IH in Hps.
    destruct (flush1_messages _ _ _ Hp) as [Heq|(m & _ & Heq)].
    + by rewrite <-Heq.
    + etrans; [|exact Hps]. rewrite Heq. by apply prefix_app_r.
Qed.

Lemma flush_append d cid c m now :
  Message.role m ∈ role_values →
  Message.id m ∉ message_ids d →
  conversations d !! cid = Some c →
  Message.conversation_id m = cid →
  flush d [NewMessage m; DirtyConversation cid now]
  = Ok (mkDatabase (<[cid := Conversation.set_updated_at now c]>
                      (conversations d))
                   (messages d ++ [m]) (tasks d)).
Proof.
  intros Hrole Hid Hc Hm. cbn [flush].
  rewrite (flush1_new_message d m c) by (by rewrite ?Hm).
  simpl. by rewrite Hc.
Qed.

Lemma flush_append_inv d cid c m now d' :
  conversations d !! cid = Some c →
  flush d [NewMessage m; DirtyConversation cid now] = Ok d' →
  Message.role m ∈ role_values
  ∧ (Message.id m ∉ message_ids d)
  ∧ d' = mkDatabase (<[cid := Conversation.set_updated_at now c]>
                       (conversations d))
                    (messages d ++ [m]) (tasks d).
Proof.
  intros Hc. cbn [flush].
  destruct (flush1 d (NewMessage m)) as [d1|e] eqn:Hf; [|done].
  apply flush1_new_message_inv in Hf as (Hrole & Hid & _ & ->).
  simpl. rewrite Hc. by intros [= <-].
Qed.

Lemma flush_refused d m ps :
  (Message.role m ∉ role_values) ∨ (Message.id m ∈ message_ids d)
  ∨ conversations d !! Message.conversation_id m = None →
  ∃ e, flush d (NewMessage m :: ps) = Raise e.
Proof.
  intros H. cbn [flush].
  destruct (flush1 d (NewMessage m)) as [d1|e] eqn:Hf; [|by exists e].
  apply flush1_new_message_inv in Hf as (Hrole & Hid & [c Hc] & _).
  destruct H as [H|[H|H]]; [done|done|congruence].
Qed.

Lemma commit_prefix w ps w' r :
  commit w ps = (w', r) → messages (db w) `prefix_of` messages (db w').
Proof.
  unfold commit. destruct (flush (db w) ps) as [d'|e] eqn:Hf.
  - intros [= <- <-]. simpl. by eapply flush_prefix.
  - by intros [= <- <-].
Qed.

Lemma commit_clock w ps w' r :
  commit w ps = (w', r) → clock w' = clock w ∧ next_uuid w' = next_uuid w.
Proof.
  unfold commit. destruct (flush (db w) ps); by intros [= <- <-].
Qed.

Lemma commit_raised w ps w' e :
  commit w ps = (w', Raise e) → w' = w.
Proof.
  unfold commit. destruct (flush (db w) ps); by intros [= <-].
Qed.

Lemma add_message_prefix w cid role content tc :
  messages (db w)
    `prefix_of` messages (db (add_message w cid role content tc).1).
Proof.
  unfold add_message. simpl.
  destruct (session_get _ cid) as [c|]; simpl.
  - destruct (commit _ _) as [w' [[]|e]] eqn:Hc;
      apply commit_prefix in Hc; exact Hc.
  - destruct (commit _ _) as [w' [[]|e]] eqn:Hc;
      apply commit_prefix in Hc; exact Hc.
Qed.

Lemma create_conversation_messages w u title :
  messages (db (create_conversation w u title).1) = messages (db w).
Proof.
  unfold create_conversation. cbn [uuid4 utcnow].
  destruct (commit _ _) as [w' [[]|e]] eqn:Hc; cbn [fst];
    unfold commit in Hc; cbn [flush db] in Hc;
    destruct (flush1 _ _) as [d'|e'] eqn:Hf; simplify_eq; try done.
  by apply flush1_new_conversation_inv in Hf as (row & -> & _).
Qed.

(** [refresh] after the insert reads the row just written. *)
Lemma refresh_inserted (m : Message.t) d cs ts k n :
  Message.id m ∉ message_ids d →
  refresh_message (mkWorld (mkDatabase cs (messages d ++ [m]) ts) k n) m
  = Ok m.
Proof.
  intros Hid. unfold refresh_message. simpl.
  rewrite list_find_app_r.
  - simpl. by rewrite decide_True.
  - apply list_find_None. apply Forall_forall. intros x Hx Heq.
    apply Hid. unfold message_ids. apply list_elem_of_fmap. by exists x.
Qed.

(** The two ways [add_message] can go: the commit is refused and
    nothing is stored, or the message is appended and the parent
    touched. *)
Lemma add_message_cases w cid role content tc :
  ((∃ e, (add_message w cid role content tc).2 = Raise e)
   ∧ db (add_message w cid role content tc).1 = db w
   ∧ next_uuid (add_message w cid role content tc).1 = S (next_uuid w)
   ∧ clock w < clock (add_message w cid role content tc).1
   ∧ ((role ∉ role_values) ∨ (next_uuid w ∈ message_ids (db w))
      ∨ conversations (db w) !! cid = None))
  ∨ (∃ c0, conversations (db w) !! cid = Some c0
           ∧ role ∈ role_values
           ∧ (next_uuid w ∉ message_ids (db w))
           ∧ add_message w cid role content tc
             = (after_append w cid c0 (appended w cid role content tc),
                Ok (appended w cid role content tc))).
Proof.
  unfold add_message. cbn [uuid4 utcnow]. unfold session_get. cbn [db].
  destruct (conversations (db w) !! cid) as [c0|] eqn:Hc.
  - cbn [utcnow]. unfold commit. cbn [db clock].
    destruct (flush (db w) _) as [d'|e] eqn:Hf.
    + apply (flush_append_inv _ cid c0) in Hf as (Hrole & Hid & ->);
        [|done].
      right. exists c0. split_and!; [done|done|done|].
      unfold set_db. cbn [db clock next_uuid].
      by rewrite refresh_inserted.
    + left. cbn [fst snd clock next_uuid db].
      split_and!; [by eexists|done|done|lia|].
      destruct (decide (role ∈ role_values)) as [Hrole|Hrole];
        [|by left].
      destruct (decide (next_uuid w ∈ message_ids (db w))) as [Hid|Hid];
        [by right; left|].
      cbn [app] in Hf. rewrite (flush_append _ cid c0) in Hf by done. done.
  - unfold commit. cbn [db clock].
    destruct (flush_refused (db w)
                (Message.mk (next_uuid w) cid role content tc (clock w)) [])
      as [e He]; [by right; right|].
    rewrite He. left. cbn [fst snd clock next_uuid db].
    split_and!; [by eexists|done|done|lia|by right; right].
Qed.

(** The two ways [create_conversation] can go. *)
Lemma create_conversation_spec w u title :
  ((∃ e, (create_conversation w u title).2 = Raise e)
   ∧ db (create_conversation w u title).1 = db w
   ∧ next_uuid (create_conversation w u title).1 = S (next_uuid w)
   ∧ clock w ≤ clock (create_conversation w u title).1)
  ∨ (∃ c, conversations (db w) !! next_uuid w = None
          ∧ Conversation.id c = next_uuid w
          ∧ varchar user_id_limit u = Ok (Conversation.user_id c)
          ∧ varchar_null title_limit title = Ok (Conversation.title c)
          ∧ Conversation.created_at c = clock w
          ∧ Conversation.updated_at c = S (clock w)
          ∧ create_conversation w u title
            = (mkWorld
                 (mkDatabase (<[next_uuid w := c]> (conversations (db w)))
                             (messages (db w)) (tasks (db w)))
                 (S (S (clock w))) (S (next_uuid w)),
               Ok c)).
Proof.
  unfold create_conversation. cbn [uuid4 utcnow]. unfold commit.
  cbn [flush db clock next_uuid].
  destruct (flush1 (db w) _) as [d'|e] eqn:Hf.
  - apply flush1_new_conversation_inv in Hf
      as (row & -> & Hfree & Hid & Hu & Ht & Hcr & Hup).
    cbn [Conversation.id Conversation.user_id Conversation.title
         Conversation.created_at Conversation.updated_at] in *.
    right. exists row. split_and!; try done.
    unfold refresh_conversation, set_db.
    cbn [db clock next_uuid conversations Conversation.id].
    by rewrite lookup_insert_eq.
  - left. cbn [fst snd db next_uuid clock].
    split_and!; [by eexists|done|done|lia].
Qed.

Lemma create_conversation_free w u title :
  conversations (db w) !! next_uuid w = None →
  String.length u ≤ user_id_limit →
  (∀ t, title = Some t → String.length t ≤ title_limit) →
  create_conversation w u title
  = (mkWorld
       (mkDatabase
          (<[next_uuid w :=
               Conversation.mk (next_uuid w) u title (clock w) (S (clock w))]>
             (conversations (db w)))
          (messages (db w)) (tasks (db w)))
       (S (S (clock w))) (S (next_uuid w)),
     Ok (Conversation.mk (next_uuid w) u title (clock w) (S (clock w)))).
Proof.
  intros Hfree Hu Ht.
  destruct (create_conversation_spec w u title)
    as [([e He] & _)|(c & _ & Hid & Hcu & Hct & Hcr & Hup & Heq)].
  - exfalso. revert He. unfold create_conversation. cbn [uuid4 utcnow].
    unfold commit. cbn [flush db clock next_uuid].
    rewrite flush1_new_conversation by done.
    unfold refresh_conversation, set_db. simpl.
    by rewrite lookup_insert_eq.
  - rewrite varchar_fits in Hcu by done.
    rewrite varchar_null_fits in Hct by done.
    injection Hcu as Hcu. injection Hct as Hct.
    rewrite Heq. destruct c. simpl in *. by subst.
Qed.

End store_facts.

(** ** Messages are never edited or deleted by the access layer *)

(** C9. Whatever operation of the conversation-store access layer runs
    (listing or fetching conversations, fetching recent messages,
    appending a message, creating a conversation, checking ownership),
    the messages persisted before it are still there afterwards, with
    the same fields and in the same order: the old table is a prefix of
    the new one. *)
Theorem persisted_messages_immutable (w : World) (op : StoreOp) :
  messages (db w) `prefix_of` messages (db (exec_op w op)).
Proof.
  destruct op as [u|cid n|cid r c tc|u title|cid u]; simpl.
  - done.
  - done.
  - apply add_message_prefix.
  - by rewrite create_conversation_messages.
  - done.
Qed.

(** ** The context window *)

#[global] Instance newest_first_total : Total newest_first.
Proof. intros m1 m2. unfold newest_first. lia. Qed.

#[global] Instance newest_first_trans : Transitive newest_first.
Proof. intros m1 m2 m3. unfold newest_first. lia. Qed.

Section context_window.

Variables (w : World) (cid : uuid) (N : nat).

Let newest : list Message.t :=
  merge_sort newest_first (conversation_log w cid).

Lemma window_unfold :
  get_conversation_messages w cid N = reverse (take N newest).
Proof. reflexivity. Qed.

Lemma newest_sorted : StronglySorted newest_first newest.
Proof. apply StronglySorted_merge_sort; apply _. Qed.

Lemma newest_perm : newest ≡ₚ conversation_log w cid.
Proof. apply merge_sort_Permutation. Qed.



Lemma window_most_recent :
  get_conversation_messages w cid N ++ drop N newest
    ≡ₚ conversation_log w cid
  ∧ ∀ old m, old ∈ drop N newest →
             m ∈ get_conversation_messages w cid N →
             Message.created_at old ≤ Message.created_at m.
Proof.
  rewrite window_unfold. split.
  - rewrite reverse_Permutation, take_drop. apply newest_perm.
  - intros old m Hold Hm. rewrite elem_of_reverse in Hm.
    pose proof newest_sorted as Hs.
    rewrite <-(take_drop N newest) in Hs.
    exact (StronglySorted_app_1_elem_of _ _ _ _ _ Hs Hm Hold).
Qed.

Lemma window_subset m :
  m ∈ get_conversation_messages w cid N → m ∈ conversation_log w cid.
Proof.
  intros Hm. destruct window_most_recent as [Hperm _].
  rewrite <-Hperm. apply elem_of_app. by left.
Qed.

End context_window.


(** ** Conversations of other users look like missing ones *)

Section anti_enumeration.

Variable run : AgentRun.
Variables (w : World) (caller : string).

Lemma verify_missing cid :
  conversations (db w) !! cid = None →
  verify_conversation_ownership w cid caller = PyNone.
Proof.
  intros H. unfold verify_conversation_ownership, session_get. by rewrite H.
Qed.

Lemma verify_foreign cid c :
  conversations (db w) !! cid = Some c →
  Conversation.user_id c ≠ caller →
  verify_conversation_ownership w cid caller = PyBool false.
Proof.
  intros H Hne. unfold verify_conversation_ownership, session_get.
  rewrite H. by rewrite bool_decide_eq_false_2.
Qed.

Lemma verify_own cid c :
  conversations (db w) !! cid = Some c →
  Conversation.user_id c = caller →
  verify_conversation_ownership w cid caller = PyBool true.
Proof.
  intros H He. unfold verify_conversation_ownership, session_get.
  rewrite H. by rewrite bool_decide_eq_true_2.
Qed.

Lemma resolve_not_owned cid :
  truthy (verify_conversation_ownership w cid caller) = false →
  get_or_create_conversation w caller (Some cid) = (w, Raise NotFound).
Proof. intros H. unfold get_or_create_conversation. by rewrite H. Qed.

Lemma turn_not_owned cid message :
  truthy (verify_conversation_ownership w cid caller) = false →
  handle_chat run w caller message (Some cid) = (w, Raise NotFound).
Proof.
  intros H. unfold handle_chat. by rewrite resolve_not_owned.
Qed.

End anti_enumeration.

(** C3. Anti-enumeration: when a caller names a conversation that
    belongs to another user, the ownership test fails as it does for an
    id that names no conversation, the scoped fetch answers "not found"
    in both cases, and a turn against either id ends with the same "not
    found" outcome and leaves the world as it was. *)
Theorem foreign_conversation_not_found (run : AgentRun) (w : World)
    (caller message : string) (foreign missing : uuid) (c : Conversation.t) :
  conversations (db w) !! foreign = Some c →
  Conversation.user_id c ≠ caller →
  conversations (db w) !! missing = None →
  truthy (verify_conversation_ownership w foreign caller)
  = truthy (verify_conversation_ownership w missing caller)
  ∧ get_or_create_conversation w caller (Some foreign)
    = get_or_create_conversation w caller (Some missing)
  ∧ handle_chat run w caller message (Some foreign)
    = handle_chat run w caller message (Some missing)
  ∧ handle_chat run w caller message (Some foreign) = (w, Raise NotFound).
Proof.
  intros Hf Hne Hm.
  assert (truthy (verify_conversation_ownership w foreign caller) = false) as H1
    by (by rewrite (verify_foreign w caller foreign c)).
  assert (truthy (verify_conversation_ownership w missing caller) = false) as H2
    by (by rewrite verify_missing).
  split_and!.
  - by rewrite H1, H2.
  - by rewrite !resolve_not_owned.
  - by rewrite !turn_not_owned.
  - by rewrite turn_not_owned.
Qed.

(** ** Appending a message, in full *)

Section append.

Variables (w : World) (cid : uuid) (c : Conversation.t).
Hypothesis fresh : uuids_fresh w.
Hypothesis parent : conversations (db w) !! cid = Some c.

Lemma fresh_not_stored : next_uuid w ∉ message_ids (db w).
Proof.
  unfold message_ids. intros (m & Hid & Hm)%list_elem_of_fmap.
  unfold uuids_fresh in fresh. rewrite Forall_forall in fresh.
  specialize (fresh m Hm). lia.
Qed.

Lemma refresh_appended (m : Message.t) cs ts k n :
  Message.id m = next_uuid w →
  refresh_message
    (mkWorld (mkDatabase cs (messages (db w) ++ [m]) ts) k n) m = Ok m.
Proof.
  intros Hid. unfold refresh_message. simpl.
  rewrite list_find_app_r.
  - simpl. by rewrite decide_True.
  - apply list_find_None. unfold uuids_fresh in fresh.
    eapply Forall_impl; [exact fresh|]. simpl. intros x Hx. lia.
Qed.

Lemma add_message_ok role content tc :
  role ∈ role_values →
  add_message w cid role content tc
  = (after_append w cid c (appended w cid role content tc),
     Ok (appended w cid role content tc)).
Proof.
  intros Hrole.
  destruct (add_message_cases w cid role content tc)
    as [(_ & _ & _ & _ & [H|[H|H]])|(c0 & Hc0 & _ & _ & Heq)].
  - done.
  - by apply fresh_not_stored in H.
  - congruence.
  - rewrite Heq. congruence.
Qed.

Lemma user_role : "user" ∈ role_values.
Proof. apply list_elem_of_here. Qed.

Lemma assistant_role : "assistant" ∈ role_values.
Proof. apply list_elem_of_further, list_elem_of_here. Qed.

End append.

(** ** Well-formed worlds *)

Lemma uuids_fresh_mono w w' :
  uuids_fresh w → messages (db w') = messages (db w) →
  next_uuid w ≤ next_uuid w' → uuids_fresh w'.
Proof.
  unfold uuids_fresh. intros H -> Hle.
  eapply Forall_impl; [exact H|]. simpl. intros m Hm. lia.
Qed.

Lemma uuids_fresh_after_append w cid c m :
  uuids_fresh w → Message.id m = next_uuid w →
  uuids_fresh (after_append w cid c m).
Proof.
  unfold uuids_fresh, after_append. simpl. intros H Hid.
  apply Forall_app. split.
  - eapply Forall_impl; [exact H|]. simpl. intros x Hx. lia.
  - apply Forall_singleton. lia.
Qed.

Lemma keys_match_after_append w cid c m :
  keys_match w → conversations (db w) !! cid = Some c →
  keys_match (after_append w cid c m).
Proof.
  unfold keys_match, after_append. simpl. intros H Hc.
  apply map_Forall_insert_2; [|done]. simpl. exact (H _ _ Hc).
Qed.

Lemma wf_add_message w cid role content tc :
  wf w → wf (add_message w cid role content tc).1.
Proof.
  intros [Hf Hk].
  destruct (add_message_cases w cid role content tc)
    as [(_ & Hdb & Hn & _)|(c0 & Hc0 & _ & _ & Heq)].
  - split.
    + eapply uuids_fresh_mono; [exact Hf|by rewrite Hdb|lia].
    + unfold keys_match. by rewrite Hdb.
  - rewrite Heq. simpl. split.
    + by apply uuids_fresh_after_append.
    + by apply keys_match_after_append.
Qed.

Lemma wf_create_conversation w u title :
  wf w → wf (create_conversation w u title).1.
Proof.
  intros [Hf Hk].
  destruct (create_conversation_spec w u title)
    as [(_ & Hdb & Hn & _)|(c & _ & Hid & _ & _ & _ & _ & Heq)].
  - split.
    + eapply uuids_fresh_mono; [exact Hf|by rewrite Hdb|lia].
    + unfold keys_match. by rewrite Hdb.
  - rewrite Heq. simpl. split.
    + eapply uuids_fresh_mono; [exact Hf|done|simpl; lia].
    + unfold keys_match. simpl. by apply map_Forall_insert_2.
Qed.

Lemma turn_paired_snoc_turn log u a :
  turn_paired log = true →
  Message.role a = "assistant" →
  turn_paired (log ++ [u; a]) = true.
Proof.
  intros Hlog Ha. induction log as [|m rest IH]; simpl in *.
  - rewrite Ha. simpl.
    by destruct (bool_decide (Message.role u = "user")).
  - apply andb_prop in Hlog as [Hm Hrest].
    rewrite (IH Hrest), andb_true_r.
    destruct (bool_decide (Message.role m = "user")); [|done].
    destruct rest as [|next rest']; [done|]. exact Hm.
Qed.

Lemma turn_paired_snoc_user log u :
  Message.role u = "user" → turn_paired (log ++ [u]) = false.
Proof.
  intros Hu. induction log as [|m rest IH]; simpl.
  - by rewrite bool_decide_eq_true_2.
  - rewrite IH. apply andb_false_r.
Qed.

(** ** One turn *)

Lemma conversation_log_eq w w' cid :
  messages (db w') = messages (db w) →
  conversation_log w' cid = conversation_log w cid.
Proof. unfold conversation_log. by intros ->. Qed.

Lemma conversation_log_snoc w w' cid m :
  messages (db w') = messages (db w) ++ [m] →
  Message.conversation_id m = cid →
  conversation_log w' cid = conversation_log w cid ++ [m].
Proof.
  unfold conversation_log. intros -> Hm.
  by rewrite filter_app, filter_cons_True, filter_nil.
Qed.

Section turn.

Variable run : AgentRun.
Hypothesis run_keeps_store : keeps_store run.

Variables (w : World) (caller message : string).
Variable conversation_id : option uuid.
Variables (w1 : World) (conversation : Conversation.t).

Hypothesis wf_w : wf w.
Hypothesis resolved :
  get_or_create_conversation w caller conversation_id = (w1, Ok conversation).

Let cid : uuid := Conversation.id conversation.
Let history : list Message.t := get_conversation_messages w1 cid context_limit.
Let context : list ContextItem := (Stored <$> history) ++ [NewText message].
Let um : Message.t := appended w1 cid "user" message None.
Let w2 : World := after_append w1 cid conversation um.

Lemma resolved_facts :
  messages (db w1) = messages (db w)
  ∧ wf w1
  ∧ conversations (db w1) !! cid = Some conversation.
Proof.
  destruct wf_w as [Hf Hk]. subst cid.
  destruct conversation_id as [cid0|]; simpl in resolved.
  - destruct (truthy _); [|done]. unfold session_get in resolved.
    destruct (conversations (db w) !! cid0) as [c|] eqn:Hc; [|done].
    injection resolved as <- <-. split_and!; [done|done|].
    by rewrite (Hk _ _ Hc).
  - destruct (create_conversation_spec w caller None)
      as [([e He] & _)|(c & _ & Hid & _ & _ & _ & _ & Heq)].
    + rewrite resolved in He. done.
    + rewrite Heq in resolved. injection resolved as <- <-.
      simpl. rewrite Hid. split_and!; [done| |by rewrite lookup_insert_eq].
      split.
      * eapply uuids_fresh_mono; [exact Hf|done|simpl; lia].
      * unfold keys_match. simpl. by apply map_Forall_insert_2.
Qed.

Lemma user_message_appended :
  add_message w1 cid "user" message None = (w2, Ok um).
Proof.
  destruct resolved_facts as (_ & [Hf _] & Hc).
  by rewrite (add_message_ok w1 cid conversation Hf Hc)
    by apply list_elem_of_here.
Qed.

Lemma turn_unfold :
  handle_chat run w caller message conversation_id
  = store_reply cid (run w2 context caller).
Proof.
  unfold handle_chat. rewrite resolved.
  fold cid. rewrite user_message_appended.
  fold history. fold context.
  unfold store_reply. by destruct (run w2 context caller) as [w3 [response|e]].
Qed.

Lemma window_excludes_new_message : um ∉ history.
Proof.
  destruct resolved_facts as (_ & [Hf _] & _).
  intros Hin. subst history.
  apply window_subset in Hin. unfold conversation_log in Hin.
  apply list_elem_of_filter in Hin as [_ Hin].
  unfold uuids_fresh in Hf. rewrite Forall_forall in Hf.
  specialize (Hf _ Hin). simpl in Hf. lia.
Qed.

Lemma reasoning_sees_user_message :
  last (conversation_log w2 cid) = Some um.
Proof.
  rewrite (conversation_log_snoc w1 w2 cid um); [|done|done].
  apply last_snoc.
Qed.

Lemma reply_appended w3 response :
  run w2 context caller = (w3, Ok response) →
  let am := appended w3 cid "assistant" (response_content response)
                     (response_tool_calls response) in
  handle_chat run w caller message conversation_id
  = (after_append w3 cid
       (Conversation.set_updated_at (S (clock w1)) conversation) am,
     Ok response)
  ∧ messages (db w3) = messages (db w) ++ [um].
Proof.
  intros Hrun. simpl.
  destruct resolved_facts as (Hmsgs & [Hf Hk] & Hc).
  destruct (run_keeps_store w2 context caller) as (Hm3 & Hc3 & Hn3).
  rewrite Hrun in Hm3, Hc3, Hn3. simpl in Hm3, Hc3, Hn3.
  assert (uuids_fresh w3) as Hf3.
  { eapply (uuids_fresh_mono w2); [|done|done].
    by apply uuids_fresh_after_append. }
  assert (conversations (db w3) !! cid
          = Some (Conversation.set_updated_at (S (clock w1)) conversation))
    as Hp3 by (by rewrite Hc3; simpl; rewrite lookup_insert_eq).
  rewrite turn_unfold, Hrun. unfold store_reply.
  rewrite (add_message_ok w3 cid _ Hf3 Hp3)
    by apply list_elem_of_further, list_elem_of_here.
  split; [done|].
  by rewrite Hm3, <-Hmsgs.
Qed.

Lemma turn_other_logs other :
  other ≠ cid →
  conversation_log (handle_chat run w caller message conversation_id).1 other
  = conversation_log w other.
Proof.
  intros Hother. destruct resolved_facts as (Hmsgs & _ & _).
  destruct (run w2 context caller) as [w3 [response|e]] eqn:Hrun.
  - destruct (reply_appended w3 response Hrun) as [Heq Hm3].
    simpl in Heq. rewrite Heq. unfold conversation_log. simpl. rewrite Hm3.
    rewrite !filter_app, !filter_cons_False, filter_nil by (simpl; congruence).
    by rewrite !app_nil_r.
  - destruct (run_keeps_store w2 context caller) as (Hm3 & _ & _).
    rewrite Hrun in Hm3. simpl in Hm3.
    rewrite turn_unfold, Hrun. unfold conversation_log. simpl.
    rewrite Hm3, Hmsgs.
    rewrite filter_app, filter_cons_False, filter_nil by (simpl; congruence).
    by rewrite app_nil_r.
Qed.

(** C1, as the code has it. Take a turn that resolves its conversation
    in a well-formed world, with an agent that leaves the conversation
    tables alone. The logs of the other conversations stay as they
    are. The user message is stored, and then: when the reasoning step
    returns a response, the turn returns it and the log of the
    conversation grows by exactly the user message directly followed
    by one assistant message carrying the reply and the tool calls, so
    a paired log stays paired; when the reasoning step raises, the turn
    raises the same error and the log grows by the user message
    alone. *)
Theorem turn_paired_when_reasoning_returns :
  turn_paired (conversation_log w cid) = true →
  Message.role um = "user" ∧ Message.content um = message
  ∧ (∀ other, other ≠ cid →
       conversation_log (handle_chat run w caller message conversation_id).1
                        other
       = conversation_log w other)
  ∧ ∀ w3 r, run w2 context caller = (w3, r) →
      let final := handle_chat run w caller message conversation_id in
      match r with
      | Ok response =>
          final.2 = Ok response
          ∧ ∃ am,
              Message.role am = "assistant"
              ∧ Message.content am = response_content response
              ∧ Message.tool_calls am = response_tool_calls response
              ∧ conversation_log final.1 cid
                = conversation_log w cid ++ [um; am]
              ∧ turn_paired (conversation_log final.1 cid) = true
      | Raise e =>
          final.2 = Raise e
          ∧ conversation_log final.1 cid = conversation_log w cid ++ [um]
          ∧ turn_paired (conversation_log final.1 cid) = false
      end.
Proof.
  intros Hpaired. split_and!; [done|done|apply turn_other_logs|].
  intros w3 [response|e] Hrun; simpl.
  - destruct (reply_appended w3 response Hrun) as [Heq Hm3].
    simpl in Heq. rewrite Heq. simpl. split; [done|].
    exists (appended w3 cid "assistant" (response_content response)
                    (response_tool_calls response)).
    split_and!; [reflexivity..| |].
    + unfold conversation_log. simpl. rewrite Hm3.
      rewrite !filter_app, !filter_cons_True, filter_nil by done.
      by rewrite <-app_assoc.
    + unfold conversation_log. simpl. rewrite Hm3.
      rewrite !filter_app, !filter_cons_True, filter_nil by done.
      rewrite <-app_assoc. by apply turn_paired_snoc_turn.
  - destruct resolved_facts as (Hmsgs & _ & _).
    destruct (run_keeps_store w2 context caller) as (Hm3 & _ & _).
    rewrite Hrun in Hm3. simpl in Hm3.
    rewrite turn_unfold, Hrun. simpl. split; [done|].
    assert (conversation_log w3 cid = conversation_log w cid ++ [um]) as ->.
    { apply conversation_log_snoc; [|done]. by rewrite Hm3, <-Hmsgs. }
    split; [done|]. by apply turn_paired_snoc_user.
Qed.

(** C5. In a turn that resolves its conversation, the context window
    is read from the store as it is before the turn writes to it and
    so does not contain the new user message, whose text goes to the
    agent as a separate last item; the user message is appended next,
    and the agent is run on the world that already holds it as the
    last message of the conversation; whatever the agent does, return
    or raise, the user message is in the store when the turn ends. *)
Theorem user_message_stored_before_reasoning :
  add_message w1 cid "user" message None = (w2, Ok um)
  ∧ Message.role um = "user" ∧ Message.content um = message
  ∧ (um ∉ get_conversation_messages w1 cid context_limit)
  ∧ get_conversation_messages w1 cid context_limit
    = get_conversation_messages w cid context_limit
  ∧ last (conversation_log w2 cid) = Some um
  ∧ handle_chat run w caller message conversation_id
    = store_reply cid
        (run w2 ((Stored <$> get_conversation_messages w1 cid context_limit)
                 ++ [NewText message]) caller)
  ∧ um ∈ messages (db (handle_chat run w caller message conversation_id).1).
Proof.
  destruct resolved_facts as (Hmsgs & _ & _).
  split_and!.
  - apply user_message_appended.
  - done.
  - done.
  - apply window_excludes_new_message.
  - unfold get_conversation_messages. by rewrite Hmsgs.
  - apply reasoning_sees_user_message.
  - apply turn_unfold.
  - rewrite turn_unfold.
    destruct (run_keeps_store w2 context caller) as (Hm3 & _ & _).
    destruct (run w2 context caller) as [w3 [response|e]] eqn:Hrun;
      simpl in Hm3 |- *.
    + pose proof (add_message_prefix w3 cid "assistant"
                    (response_content response)
                    (response_tool_calls response)) as Hpre.
      destruct (add_message w3 cid "assistant" _ _) as [w4 [am|e]];
        simpl in *; (eapply elem_of_prefix; [|exact Hpre]);
        rewrite Hm3; apply elem_of_app; right; by apply list_elem_of_singleton.
    + rewrite Hm3. apply elem_of_app. right. by apply list_elem_of_singleton.
Qed.

End turn.

(** Well-formedness is kept by a whole turn, so it holds in every world
    reached from a well-formed one by turns. *)
Lemma wf_get_or_create_conversation w user_id conversation_id :
  wf w → wf (get_or_create_conversation w user_id conversation_id).1.
Proof.
  intros Hwf. destruct conversation_id as [cid|]; simpl.
  - destruct (truthy _); [|done]. by destruct (session_get w cid).
  - by apply wf_create_conversation.
Qed.

Lemma wf_after_run run w context user_id :
  keeps_store run → wf w → wf (run w context user_id).1.
Proof.
  intros Hrun [Hf Hk]. destruct (Hrun w context user_id) as (Hm & Hc & Hn).
  split.
  - by eapply uuids_fresh_mono.
  - unfold keys_match. by rewrite Hc.
Qed.

Lemma wf_handle_chat run w user_id message conversation_id :
  keeps_store run → wf w →
  wf (handle_chat run w user_id message conversation_id).1.
Proof.
  intros Hrun Hwf. unfold handle_chat.
  pose proof (wf_get_or_create_conversation w user_id conversation_id Hwf)
    as H1.
  destruct (get_or_create_conversation w user_id conversation_id)
    as [w1 [conversation|e]]; simpl in *; [|done].
  pose proof (wf_add_message w1 (Conversation.id conversation) "user" message
                None H1) as H2.
  destruct (add_message w1 _ "user" message None) as [w2 [um|e]];
    simpl in *; [|done].
  match goal with
  | |- context [run w2 ?context user_id] =>
      pose proof (wf_after_run run w2 context user_id Hrun H2) as H3;
      destruct (run w2 context user_id) as [w3 [response|e]]
  end; simpl in *; [|done].
  pose proof (wf_add_message w3 (Conversation.id conversation) "assistant"
                (response_content response) (response_tool_calls response) H3)
    as H4.
  by destruct (add_message w3 _ "assistant" _ _) as [w4 [am|e]].
Qed.

(** ** The recency marker *)

Section recency.

Variables (w : World) (cid : uuid) (role content : string).
Variable tc : option json.
Variable c : Conversation.t.
Hypothesis parent : conversations (db w) !! cid = Some c.

Let m : Message.t := appended w cid role content tc.
Let start : Request := start_request cid role content tc.

Lemma settled_steps n w' r :
  (∃ x, req_pc r = Returned x) → run_steps n w' r = (w', r).
Proof.
  intros [x Hx]. induction n as [|n IH]; [done|].
  simpl. unfold add_message_step. rewrite Hx. exact IH.
Qed.

Lemma refresh_steps n w' r x :
  req_pc r = AtRefresh x → db (run_steps n w' r).1 = db w'.
Proof.
  intros Hx. destruct n as [|n]; [done|].
  simpl. unfold add_message_step. rewrite Hx.
  rewrite settled_steps; [done|]. by eexists.
Qed.

Lemma steps_to_commit :
  run_steps 4 w start
  = (mkWorld (db w) (S (S (clock w))) (S (next_uuid w)),
     mkRequest cid role content tc
       [NewMessage m; DirtyConversation cid (S (clock w))] (AtCommit m)).
Proof.
  simpl. unfold add_message_step, session_get. simpl. by rewrite parent.
Qed.

Lemma run_steps_add n k w' r :
  run_steps (n + k) w' r
  = run_steps k (run_steps n w' r).1 (run_steps n w' r).2.
Proof.
  revert w' r. induction n as [|n IH]; intros w' r; simpl; [done|].
  destruct (add_message_step w' r) as [w'' r'']. apply IH.
Qed.

(** The statements of [add_message], run to the end, are the function. *)
Lemma run_steps_add_message :
  (run_steps 6 w start).1 = (add_message w cid role content tc).1
  ∧ req_pc (run_steps 6 w start).2
    = Returned (add_message w cid role content tc).2.
Proof.
  change 6 with (4 + 2). rewrite run_steps_add, steps_to_commit.
  unfold add_message, uuid4, utcnow, session_get. simpl. rewrite parent.
  simpl. unfold add_message_step. simpl.
  destruct (commit _ _) as [w' [[]|e]]; simpl; done.
Qed.

(** C6, as the code has it. While one [add_message] runs on its own
    against an existing conversation, the persisted state is, after
    any number of its statements, either the one it started from or
    the one in which the message is stored together with a parent
    [updated_at] later than the creation time of the message: the
    insert and the update are written by the one commit. The parent
    row is read through the session before it is written, and the
    value written is the instant read back then. *)
Theorem add_message_marker_committed_with_insert (k : nat) :
  req_pc (run_steps 3 w start).2 = AtTouch m (Some c)
  ∧ (db (run_steps k w start).1 = db w
     ∨ (messages (db (run_steps k w start).1) = messages (db w) ++ [m]
        ∧ conversations (db (run_steps k w start).1) !! cid
          = Some (Conversation.set_updated_at (S (clock w)) c)
        ∧ reflects (db (run_steps k w start).1) m
        ∧ 4 < k)).
Proof.
  split.
  { simpl. unfold add_message_step, session_get. simpl. by rewrite parent. }
  destruct (decide (k ≤ 4)) as [Hk|Hk].
  - left.
    do 5 (destruct k as [|k];
          [simpl; unfold add_message_step, session_get; simpl;
           rewrite ?parent; reflexivity|]).
    lia.
  - replace k with (4 + S (k - 5)) at 1 2 3 4 by lia.
    rewrite run_steps_add, steps_to_commit.
    generalize (k - 5). intros j.
    cbn [fst snd run_steps]. unfold add_message_step at 1 2 3 4.
    cbn [req_pc req_pending]. unfold commit. cbn [db].
    destruct (flush (db w) _) as [d'|e] eqn:Hf.
    + right. apply (flush_append_inv _ cid c) in Hf as (_ & _ & ->);
        [|done].
      erewrite refresh_steps; [|reflexivity]. simpl.
      split_and!; [done|by rewrite lookup_insert_eq| |lia].
      exists (Conversation.set_updated_at (S (clock w)) c). simpl.
      split; [by rewrite lookup_insert_eq|lia].
    + left. rewrite settled_steps; [done|]. by eexists.
Qed.

End recency.

(** Without a parent row the insert violates the foreign key, and the
    call persists nothing. *)
Lemma add_message_without_parent w cid role content tc k :
  conversations (db w) !! cid = None →
  db (run_steps k w (start_request cid role content tc)).1 = db w.
Proof.
  intros Hnone.
  assert (run_steps 4 w (start_request cid role content tc)
          = (mkWorld (db w) (S (clock w)) (S (next_uuid w)),
             mkRequest cid role content tc
               [NewMessage (appended w cid role content tc)]
               (AtCommit (appended w cid role content tc)))) as Hfour.
  { simpl. unfold add_message_step, session_get. simpl. by rewrite Hnone. }
  destruct (decide (k ≤ 4)) as [Hk|Hk].
  - do 5 (destruct k as [|k];
          [simpl; unfold add_message_step, session_get; simpl;
           rewrite ?Hnone; reflexivity|]).
    lia.
  - replace k with (4 + S (k - 5)) by lia.
    rewrite run_steps_add, Hfour. generalize (k - 5). intros j.
    cbn [fst snd run_steps]. unfold add_message_step at 1.
    cbn [req_pc req_pending]. unfold commit. cbn [db].
    destruct (flush_refused (db w) (appended w cid role content tc) [])
      as [e He]; [by right; right|].
    rewrite He. rewrite settled_steps; [done|by eexists].
Qed.

(** ** Failures of the stated claims *)

(** C1, counterexample. The reasoning step of a turn on an empty
    conversation times out: the turn raises [Timeout], and the log of
    the conversation, paired before, ends with the user message and has
    no assistant message after it. *)
Lemma timeout_leaves_user_message_unpaired :
  let final := handle_chat timeout_run sample_world "alice" "hello" (Some 7) in
  turn_paired (conversation_log sample_world 7) = true
  ∧ final.2 = Raise Timeout
  ∧ conversation_log final.1 7 = [Message.mk 100 7 "user" "hello" None 10]
  ∧ turn_paired (conversation_log final.1 7) = false.
Proof. vm_compute. by split_and!. Qed.

(** C6, counterexample. Two appends to conversation 7 are interleaved:
    the first request reads the clock for [updated_at], the second one
    runs from start to end after it, and the first one commits last.
    Both messages are stored, and the marker of the parent is left
    older than the second message. *)
Lemma interleaved_appends_leave_stale_marker :
  let schedule :=
    [false; false; false; false;
     true; true; true; true; true; true;
     false; false] in
  let '(w', r1, r2) :=
    interleave schedule sample_world
      (start_request 7 "user" "first" None)
      (start_request 7 "user" "second" None) in
  let m1 := Message.mk 100 7 "user" "first" None 10 in
  let m2 := Message.mk 101 7 "user" "second" None 12 in
  req_pc r1 = Returned (Ok m1)
  ∧ req_pc r2 = Returned (Ok m2)
  ∧ messages (db w') = [m2; m1]
  ∧ (Conversation.updated_at <$> conversations (db w') !! 7) = Some 11
  ∧ reflectsb (db w') m2 = false
  ∧ ¬ reflects (db w') m2.
Proof.
  vm_compute. split_and!; try reflexivity.
  intros (c & Hc & Hle). vm_compute in Hc. injection Hc as <-.
  vm_compute in Hle. lia.
Qed.

(** ** Lookup by description *)

Section matching.

Import ToolRegistry.

Variable p : MatchPolicy.
Variable description : string.
Variable candidates : list Task.t.

Let matches : list Task.t := filter (exact p description) candidates.
Let ranked : list Task.t := filter (above p description) candidates.
Let best : nat := max_list (score p description <$> ranked).
Let winners : list Task.t :=
  filter (λ t, score p description t = best) ranked.

Lemma find_task_exact t :
  matches = [t] → find_task p description candidates = Some t.
Proof. unfold find_task, matches. intros H. by rewrite H. Qed.

Lemma find_task_ambiguous t1 t2 rest :
  matches = t1 :: t2 :: rest → find_task p description candidates = None.
Proof. unfold find_task, matches. intros H. by rewrite H. Qed.

Lemma find_task_fuzzy :
  matches = [] →
  find_task p description candidates
  = match winners with [t] => Some t | _ => None end.
Proof. unfold find_task, matches. intros H. by rewrite H. Qed.

Lemma matches_spec t :
  t ∈ matches ↔ t ∈ candidates ∧ exact p description t.
Proof. unfold matches. rewrite list_elem_of_filter. tauto. Qed.

Lemma no_exact_filter :
  (∀ t, t ∈ candidates → ¬ exact p description t) → matches = [].
Proof.
  intros H. destruct matches as [|t rest] eqn:Hf; [done|].
  assert (t ∈ matches) as Ht by (rewrite Hf; apply list_elem_of_here).
  apply matches_spec in Ht as [Ht He]. by destruct (H t Ht).
Qed.

Lemma single_exact t :
  NoDup candidates → t ∈ matches →
  (∀ t', t' ∈ matches → t' = t) → matches = [t].
Proof.
  intros Hnd Ht Hall. apply Permutation_singleton_r.
  apply NoDup_Permutation.
  - unfold matches. by apply NoDup_filter.
  - apply NoDup_singleton.
  - intros x. rewrite list_elem_of_singleton. split; [apply Hall|by intros ->].
Qed.

Lemma two_exact t1 t2 :
  t1 ∈ matches → t2 ∈ matches → t1 ≠ t2 →
  ∃ a b rest, matches = a :: b :: rest.
Proof.
  intros H1 H2 Hne. destruct matches as [|a [|b rest]].
  - by apply not_elem_of_nil in H1.
  - apply list_elem_of_singleton in H1, H2. congruence.
  - by exists a, b, rest.
Qed.

Lemma winners_spec t :
  t ∈ winners ↔
  t ∈ candidates ∧ above p description t ∧ score p description t = best.
Proof.
  unfold winners, ranked. rewrite !list_elem_of_filter. tauto.
Qed.

Lemma best_bounds t :
  t ∈ candidates → above p description t → score p description t ≤ best.
Proof.
  intros Ht Ha. unfold best. apply max_list_elem_of_le.
  apply list_elem_of_fmap. exists t. split; [done|].
  unfold ranked. by apply list_elem_of_filter.
Qed.

Lemma best_attained :
  ranked ≠ [] → ∃ t, t ∈ winners.
Proof.
  intros Hne.
  assert (score p description <$> ranked ≠ []) as Hne'
    by (by destruct ranked).
  apply max_list_elem_of in Hne'.
  apply list_elem_of_fmap in Hne' as (t & Hbest & Ht).
  exists t. unfold winners. apply list_elem_of_filter. by split.
Qed.

Lemma single_winner t :
  NoDup candidates → t ∈ winners →
  (∀ t', t' ∈ winners → t' = t) → winners = [t].
Proof.
  intros Hnd Ht Hall. apply Permutation_singleton_r.
  apply NoDup_Permutation.
  - unfold winners, ranked. by do 2 apply NoDup_filter.
  - apply NoDup_singleton.
  - intros x. rewrite list_elem_of_singleton. split; [apply Hall|by intros ->].
Qed.

Lemma tie_no_single_winner t1 t2 :
  t1 ∈ winners → t2 ∈ winners → t1 ≠ t2 →
  match winners with [t] => Some t | _ => None end = None.
Proof.
  intros H1 H2 Hne. destruct winners as [|x [|y rest]]; [done| |done].
  apply list_elem_of_singleton in H1, H2. congruence.
Qed.

Lemma find_task_chosen t :
  find_task p description candidates = Some t →
  t ∈ candidates
  ∧ (exact p description t
     ∨ ((∀ x, x ∈ candidates → ¬ exact p description x)
        ∧ above p description t)).
Proof.
  unfold find_task. fold matches. fold ranked. fold best. fold winners.
  destruct matches as [|x [|y rest]] eqn:Hf; [| |done].
  - destruct winners as [|y [|z rest']] eqn:Hw; [done| |done].
    intros [= <-].
    assert (y ∈ winners) as Hy by (rewrite Hw; apply list_elem_of_here).
    apply winners_spec in Hy as (Hy & Ha & _).
    split; [done|]. right. split; [|done].
    intros x Hx He.
    assert (x ∈ matches) as Hin by (by apply matches_spec).
    rewrite Hf in Hin. by apply not_elem_of_nil in Hin.
  - intros [= <-].
    assert (x ∈ matches) as Hin by (rewrite Hf; apply list_elem_of_here).
    apply matches_spec in Hin as [Hx He]. split; [done|by left].
Qed.

Lemma find_task_cases :
  NoDup candidates →
  (∀ t, t ∈ candidates → exact p description t →
        (∀ x, x ∈ candidates → exact p description x → x = t) →
        find_task p description candidates = Some t)
  ∧ (∀ t1 t2, t1 ∈ candidates → t2 ∈ candidates → t1 ≠ t2 →
              exact p description t1 → exact p description t2 →
              find_task p description candidates = None)
  ∧ (∀ t, (∀ x, x ∈ candidates → ¬ exact p description x) →
          t ∈ candidates → above p description t →
          (∀ x, x ∈ candidates → above p description x → x ≠ t →
                score p description x < score p description t) →
          find_task p description candidates = Some t)
  ∧ ((∀ x, x ∈ candidates → ¬ exact p description x) →
     (∀ x, x ∈ candidates → ¬ above p description x) →
     find_task p description candidates = None)
  ∧ (∀ t1 t2, (∀ x, x ∈ candidates → ¬ exact p description x) →
              t1 ∈ candidates → t2 ∈ candidates → t1 ≠ t2 →
              above p description t1 → above p description t2 →
              score p description t1 = score p description t2 →
              (∀ x, x ∈ candidates → above p description x →
                    score p description x ≤ score p description t1) →
              find_task p description candidates = None).
Proof.
  intros Hnd. split_and!.
  - intros t Ht He Honly. apply find_task_exact.
    apply single_exact; [done|by apply matches_spec|].
    intros x [Hx Hxe]%matches_spec. by apply Honly.
  - intros t1 t2 H1 H2 Hne He1 He2.
    destruct (two_exact t1 t2) as (a & b & rest & Hf);
      [by apply matches_spec|by apply matches_spec|done|].
    by apply find_task_ambiguous with a b rest.
  - intros t Hno Ht Ha Hbest.
    rewrite find_task_fuzzy by by apply no_exact_filter.
    assert (score p description t = best) as Hs.
    { destruct (best_attained) as [x Hx].
      - intros Hr. assert (t ∈ ranked) as Hin
          by (by apply list_elem_of_filter).
        rewrite Hr in Hin. by apply not_elem_of_nil in Hin.
      - apply winners_spec in Hx as (Hxc & Hxa & Hxs).
        destruct (decide (x = t)) as [->|Hne]; [done|].
        pose proof (Hbest x Hxc Hxa Hne).
        pose proof (best_bounds t Ht Ha). lia. }
    rewrite (single_winner t); [done|done|by apply winners_spec|].
    intros x (Hxc & Hxa & Hxs)%winners_spec.
    destruct (decide (x = t)) as [->|Hne]; [done|].
    pose proof (Hbest x Hxc Hxa Hne). lia.
  - intros Hno Hnone.
    rewrite find_task_fuzzy by by apply no_exact_filter.
    destruct winners as [|x rest] eqn:Hw; [done|].
    assert (x ∈ winners) as Hx by (rewrite Hw; apply list_elem_of_here).
    apply winners_spec in Hx as (Hxc & Hxa & _). by destruct (Hnone x Hxc).
  - intros t1 t2 Hno H1 H2 Hne Ha1 Ha2 Heq Hmax.
    rewrite find_task_fuzzy by by apply no_exact_filter.
    assert (score p description t1 = best) as Hs.
    { destruct (best_attained) as [x Hx].
      - intros Hr. assert (t1 ∈ ranked) as Hin
          by (by apply list_elem_of_filter).
        rewrite Hr in Hin. by apply not_elem_of_nil in Hin.
      - apply winners_spec in Hx as (Hxc & Hxa & Hxs).
        pose proof (Hmax x Hxc Hxa).
        pose proof (best_bounds t1 H1 Ha1). lia. }
    apply (tie_no_single_winner t1 t2); [| |done].
    + by apply winners_spec.
    + apply winners_spec. split_and!; [done|done|lia].
Qed.

End matching.

Section lookup_tools.

Import ToolRegistry.

Variables (p : MatchPolicy) (user : string).
Variables (i : gmap string json) (w : World).

Lemma complete_task_not_found_unchanged :
  (run_complete_task p user i w).2 = Failed NotFound →
  (run_complete_task p user i w).1 = w.
Proof.
  unfold run_complete_task. destruct (field i "title") as [d|]; [|done].
  by destruct (find_task p d (own_tasks user w)).
Qed.

Lemma delete_task_not_found_unchanged :
  (run_delete_task p user i w).2 = Failed NotFound →
  (run_delete_task p user i w).1 = w.
Proof.
  unfold run_delete_task. destruct (field i "title") as [d|]; [|done].
  by destruct (find_task p d (own_tasks user w)).
Qed.

Lemma complete_task_found d t :
  field i "title" = Some d →
  find_task p d (own_tasks user w) = Some t →
  (run_complete_task p user i w).2 = Updated (mark_completed t).
Proof.
  intros Hd Ht. unfold run_complete_task. by rewrite Hd, Ht.
Qed.

Lemma delete_task_found d t :
  field i "title" = Some d →
  find_task p d (own_tasks user w) = Some t →
  (run_delete_task p user i w).2 = Deleted t.
Proof.
  intros Hd Ht. unfold run_delete_task. by rewrite Hd, Ht.
Qed.

End lookup_tools.

(** C8. The lookup of the complete and delete tools is a function of
    the description and of the candidate tasks, and for candidates
    without repetition:
    - when exactly one candidate matches the description exactly up to
      case, it is chosen;
    - when two different candidates match the description exactly up to
      case, nothing is chosen: the ambiguity is not resolved by the
      order of the list;
    - when none matches exactly and one candidate above the threshold
      scores higher than every other candidate above it, that one is
      chosen;
    - when none matches exactly and either no candidate is above the
      threshold or two different candidates above it share the best
      score, nothing is chosen;
    - a chosen task is one of the candidates, and it matches exactly or,
      with no exact match among the candidates, lies above the
      threshold;
    and the complete and delete tools, run for a user, look the
    description up among the tasks of that user, act on the task chosen,
    answer [NotFound] when nothing is chosen, and leave the world as it
    was whenever they answer [NotFound]. The case folding, the
    similarity metric and the threshold are those of the policy. *)
Theorem lookup_by_description_policy (p : ToolRegistry.MatchPolicy)
    (description : string) (candidates : list Task.t) :
  NoDup candidates →
  let find := ToolRegistry.find_task p description candidates in
  let exact := ToolRegistry.exact p description in
  let above := ToolRegistry.above p description in
  let score := ToolRegistry.score p description in
  (∀ t, t ∈ candidates → exact t →
        (∀ x, x ∈ candidates → exact x → x = t) →
        find = Some t)
  ∧ (∀ t1 t2, t1 ∈ candidates → t2 ∈ candidates → t1 ≠ t2 →
              exact t1 → exact t2 → find = None)
  ∧ (∀ t, (∀ x, x ∈ candidates → ¬ exact x) →
          t ∈ candidates → above t →
          (∀ x, x ∈ candidates → above x → x ≠ t → score x < score t) →
          find = Some t)
  ∧ ((∀ x, x ∈ candidates → ¬ exact x) →
     (∀ x, x ∈ candidates → ¬ above x) →
     find = None)
  ∧ (∀ t1 t2, (∀ x, x ∈ candidates → ¬ exact x) →
              t1 ∈ candidates → t2 ∈ candidates → t1 ≠ t2 →
              above t1 → above t2 → score t1 = score t2 →
              (∀ x, x ∈ candidates → above x → score x ≤ score t1) →
              find = None)
  ∧ (∀ t, find = Some t →
          t ∈ candidates
          ∧ (exact t ∨ ((∀ x, x ∈ candidates → ¬ exact x) ∧ above t)))
  ∧ (∀ user i w,
       ToolRegistry.field i "title" = Some description →
       candidates = ToolRegistry.own_tasks user w →
       (find = None →
        ToolRegistry.run_complete_task p user i w
        = (w, ToolRegistry.Failed ToolRegistry.NotFound)
        ∧ ToolRegistry.run_delete_task p user i w
          = (w, ToolRegistry.Failed ToolRegistry.NotFound))
       ∧ (∀ t, find = Some t →
               (ToolRegistry.run_complete_task p user i w).2
               = ToolRegistry.Updated (ToolRegistry.mark_completed t)
               ∧ (ToolRegistry.run_delete_task p user i w).2
                 = ToolRegistry.Deleted t))
  ∧ (∀ user i w,
       ((ToolRegistry.run_complete_task p user i w).2
        = ToolRegistry.Failed ToolRegistry.NotFound →
        (ToolRegistry.run_complete_task p user i w).1 = w)
       ∧ ((ToolRegistry.run_delete_task p user i w).2
          = ToolRegistry.Failed ToolRegistry.NotFound →
          (ToolRegistry.run_delete_task p user i w).1 = w)).
Proof.
  intros Hnd. simpl.
  destruct (find_task_cases p description candidates Hnd)
    as (H1 & H2 & H3 & H4 & H5).
  split_and!; [exact H1|exact H2|exact H3|exact H4|exact H5| | |].
  - apply find_task_chosen.
  - intros user i w Hfield ->. split.
    + intros Hnone.
      unfold ToolRegistry.run_complete_task, ToolRegistry.run_delete_task.
      by rewrite Hfield, Hnone.
    + intros t Ht. split.
      * by apply complete_task_found with description.
      * by apply delete_task_found with description.
  - intros user i w. split.
    + apply complete_task_not_found_unchanged.
    + apply delete_task_not_found_unchanged.
Qed.

(** ** Tools act for the caller *)

Section tool_identity.

Import ToolRegistry.

Variables (r : Registry) (user : string).











Lemma execute_tool_keeps_store call w :
  messages (db (execute_tool r user call w).1) = messages (db w)
  ∧ conversations (db (execute_tool r user call w).1) = conversations (db w)
  ∧ next_uuid (execute_tool r user call w).1 = next_uuid w.
Proof.
  unfold execute_tool.
  generalize (received r (input call)). intros i.
  destruct (decide (valid_input (tool call) i)); [|done].
  destruct (tool call).
  - unfold run_add_task. by destruct (field _ "title").
  - unfold run_list_tasks.
    repeat (match goal with
            | |- context [match ?x with _ => _ end] => destruct x
            end; try done).
  - unfold run_complete_task. destruct (field _ "title") as [d|]; [|done].
    by destruct (find_task (matching r) d (own_tasks user w)).
  - unfold run_delete_task. destruct (field _ "title") as [d|]; [|done].
    by destruct (find_task (matching r) d (own_tasks user w)).
  - unfold run_update_task. destruct (field _ "title") as [d|]; [|done].
    by destruct (find_task (matching r) d (own_tasks user w)).
Qed.

Lemma execute_all_keeps_store calls w :
  messages (db (execute_all r user calls w).1) = messages (db w)
  ∧ conversations (db (execute_all r user calls w).1) = conversations (db w)
  ∧ next_uuid (execute_all r user calls w).1 = next_uuid w.
Proof.
  revert w. induction calls as [|call rest IH]; intros w; [done|].
  simpl. pose proof (execute_tool_keeps_store call w) as (Hm & Hc & Hn).
  destruct (execute_tool r user call w) as [w1 out]. simpl in *.
  pose proof (IH w1) as (Hm' & Hc' & Hn').
  destruct (execute_all r user rest w1) as [w2 outs]. simpl in *.
  split_and!; congruence.
Qed.



End tool_identity.

Lemma agent_run_keeps_store r reason : keeps_store (agent_run r reason).
Proof.
  intros w context user_id. unfold agent_run.
  destruct (reason context) as [d|e]; [|done].
  pose proof (execute_all_keeps_store r user_id (requested d) w) as (Hm & Hc & Hn).
  destruct (ToolRegistry.execute_all r user_id (requested d) w) as [w' records].
  simpl in *. split_and!; [done|done|lia].
Qed.



(** ** The chat input *)

Section chat_input.

Import ChatInput.

Lemma slice0_length n value :
  String.length (slice0 n value) = n `min` String.length value.
Proof.
  unfold slice0. revert value.
  induction n as [|n IH]; intros [|c value]; simpl; try done.
  by rewrite IH.
Qed.

Lemma trim_start_length s : String.length (trim_start s) ≤ String.length s.
Proof.
  induction s as [|c s IH]; simpl; [done|].
  destruct (is_whitespace c); simpl; lia.
Qed.

Lemma trim_end_length s : String.length (trim_end s) ≤ String.length s.
Proof.
  induction s as [|c s IH]; simpl; [done|].
  destruct (trim_end s) as [|c' rest]; simpl in *.
  - destruct (is_whitespace c); simpl; lia.
  - lia.
Qed.

Lemma trim_length s : String.length (trim s) ≤ String.length s.
Proof.
  unfold trim. etrans; [apply trim_end_length|apply trim_start_length].
Qed.

Lemma label_length a : String.length (label a) ≤ maxLength.
Proof. destruct a; vm_compute; lia. Qed.

Lemma handleSubmit_within p message :
  within message →
  within (handleSubmit p message).1
  ∧ ∀ s, (handleSubmit p message).2 = Some s → sendable s.
Proof.
  intros Hm. unfold handleSubmit.
  destruct (String.eqb (trim message) "") eqn:He; simpl.
  - split; [done|]. by intros s.
  - destruct (negb (isLoading p) && negb (disabled p)); simpl.
    + split; [unfold within; simpl; lia|].
      intros s [= <-]. split.
      * destruct (trim message); [done|simpl; lia].
      * pose proof (trim_length message). unfold within in Hm. lia.
    + split; [done|]. by intros s.
Qed.

Lemma step_within p e message :
  within message →
  within (step p e message).1
  ∧ ∀ s, (step p e message).2 = Some s → sendable s.
Proof.
  intros Hm. destruct e as [value|a|key shiftKey|]; simpl.
  - split; [|by intros s]. unfold within. rewrite slice0_length. lia.
  - split; [apply label_length|by intros s].
  - unfold handleKeyDown.
    destruct (String.eqb key "Enter" && negb shiftKey).
    + by apply handleSubmit_within.
    + split; [done|]. by intros s.
  - by apply handleSubmit_within.
Qed.

Lemma run_within events message :
  within message →
  within (run events message).1 ∧ Forall sendable (run events message).2.
Proof.
  revert message. induction events as [|[p e] rest IH]; intros message Hm.
  - simpl. by split.
  - simpl. destruct (step_within p e message Hm) as [Hm' Hsent].
    destruct (step p e message) as [message' sent]. simpl in *.
    destruct (IH message' Hm') as [Hf Hl].
    destruct (run rest message') as [final later]. simpl in *.
    split; [done|]. apply Forall_app. split; [|done].
    destruct sent as [s|]; simpl; [|done].
    apply Forall_singleton. by apply Hsent.
Qed.

End chat_input.

(** C7, as the code has it. The chat input bounds the message text by
    truncation: whatever is typed or pasted, the text kept is its first
    2000 characters, and nothing is rejected for its length. Through
    any sequence of events, the text held by the component and every
    message handed on to be sent are at most 2000 characters long, and
    a message handed on is not empty. *)
Theorem chat_input_truncates_to_limit
    (events : list (ChatInput.Props * ChatInput.Event)) (value : string) :
  ChatInput.onChange value
  = (String.substring 0 ChatInput.maxLength value, None)
  ∧ String.length (ChatInput.onChange value).1
    = ChatInput.maxLength `min` String.length value
  ∧ ChatInput.maxLength = 2000
  ∧ String.length (ChatInput.run events "").1 ≤ 2000
  ∧ Forall (λ s, 0 < String.length s ∧ String.length s ≤ 2000)
           (ChatInput.run events "").2.
Proof.
  split_and!.
  - reflexivity.
  - apply slice0_length.
  - reflexivity.
  - apply (run_within events ""). unfold within. simpl. lia.
  - apply (run_within events ""). unfold within. simpl. lia.
Qed.

(** C7, counterexample. A text of 2001 characters is put into the input
    and sent: it is not rejected; its first 2000 characters are handed
    on as the message, and the last character is dropped without
    notice. *)
Lemma overlong_input_truncated_not_rejected :
  let value := repeat_char "a" 2001 in
  String.length value = 2001
  ∧ ChatInput.run [(idle, ChatInput.Change value); (idle, ChatInput.Send)] ""
    = ("", [repeat_char "a" 2000]).
Proof. vm_compute. by split. Qed.

(** ** Optimistic update of the message list *)

Lemma filter_all {A} (P : A → Prop) `{∀ x, Decision (P x)} (l : list A) :
  Forall P l → filter P l = l.
Proof.
  induction 1 as [|x l Hx _ IH]; [done|].
  by rewrite filter_cons_True, IH.
Qed.

Lemma keep_except_appended temp prev :
  Forall (λ m, UiMessage.id m ≠ UiMessage.id temp) prev →
  keep_except temp (prev ++ [temp]) = prev.
Proof.
  intros H. unfold keep_except.
  rewrite filter_app, filter_all, filter_cons_False, filter_nil by auto.
  by rewrite app_nil_r.
Qed.

Lemma final_id_not_provisional n : ¬ provisional (template "user-" n).
Proof. intros [k Hk]. unfold template in Hk. simpl in Hk. discriminate Hk. Qed.

Section optimistic.

Variables (user_id content : string) (started settled : Instant).
Variable s : ChatState.

Hypothesis none_provisional :
  Forall (λ m, ¬ provisional (UiMessage.id m)) (ui_messages s).

Let temp : UiMessage.t :=
  UiMessage.mk (template "temp-" (now_ms started)) role_user content None
               (iso started).
Let final : UiMessage.t :=
  UiMessage.mk (template "user-" (now_ms settled)) role_user content None
               (iso settled).

Lemma temp_is_new :
  Forall (λ m, UiMessage.id m ≠ UiMessage.id temp) (ui_messages s).
Proof.
  eapply Forall_impl; [exact none_provisional|]. simpl.
  intros m Hm Heq. apply Hm. by exists (now_ms started).
Qed.

Lemma page_rejected err :
  ui_messages
    (ChatPage.handleSendMessage (Some user_id) content started
       (Rejected err) settled s).1
  = ui_messages s.
Proof. simpl. apply keep_except_appended, temp_is_new. Qed.

Lemma page_fulfilled response :
  ui_messages
    (ChatPage.handleSendMessage (Some user_id) content started
       (Fulfilled response) settled s).1
  = ui_messages s ++ [final; chat_message response].
Proof.
  simpl. destruct (falsy (ui_conversationId s)); simpl;
    by rewrite (keep_except_appended temp) by apply temp_is_new.
Qed.

Lemma container_is_page outcome :
  ChatContainer.handleSendMessage (Some user_id) content started outcome
    settled s
  = ChatPage.handleSendMessage (Some user_id) content started outcome
      settled s.
Proof. reflexivity. Qed.

(** C10, as the code has it. Take a displayed list that holds no
    provisional message. When the send fails, the provisional user
    message appended for it is removed again and the displayed list is
    the one from before the send; the rest of the state does change:
    the error of the component is set to the message of the failure
    (or to "Failed to send message"), an error toast with that text is
    shown and the loading flag is cleared, while the conversation id
    stays. When the send succeeds, the provisional message is replaced:
    the list is the one from before the send followed by the final
    user message and the assistant message of the response, and it
    holds no provisional message again if the assistant message has
    none of these ids. Both the chat page and the chat container
    behave so. *)
Theorem optimistic_message_rolled_back (err : Thrown)
    (response : ChatResponse) :
  let page outcome :=
    ChatPage.handleSendMessage (Some user_id) content started outcome
      settled s in
  let container outcome :=
    ChatContainer.handleSendMessage (Some user_id) content started outcome
      settled s in
  ui_messages (page (Rejected err)).1 = ui_messages s
  ∧ ui_messages (container (Rejected err)).1 = ui_messages s
  ∧ ui_messages (page (Fulfilled response)).1
    = ui_messages s
      ++ [UiMessage.mk (template "user-" (now_ms settled)) role_user content
                       None (iso settled);
          chat_message response]
  ∧ ui_messages (container (Fulfilled response)).1
    = ui_messages (page (Fulfilled response)).1
  ∧ (¬ provisional (UiMessage.id (chat_message response)) →
     Forall (λ m, ¬ provisional (UiMessage.id m))
            (ui_messages (page (Fulfilled response)).1))
  ∧ ui_error (page (Rejected err)).1
    = Some (match err with
            | ErrorObject message => message
            | OtherValue => "Failed to send message"
            end)
  ∧ (page (Rejected err)).2
    = [ToastError (match err with
                   | ErrorObject message => message
                   | OtherValue => "Failed to send message"
                   end)]
  ∧ ui_isLoading (page (Rejected err)).1 = false
  ∧ ui_conversationId (page (Rejected err)).1 = ui_conversationId s
  ∧ container (Rejected err) = page (Rejected err)
  ∧ ui_error (page (Fulfilled response)).1 = None
  ∧ ui_isLoading (page (Fulfilled response)).1 = false.
Proof.
  cbv beta zeta. split_and!.
  - apply page_rejected.
  - rewrite container_is_page. apply page_rejected.
  - apply page_fulfilled.
  - by rewrite container_is_page.
  - intros Hresp. rewrite page_fulfilled.
    apply Forall_app. split; [exact none_provisional|].
    apply Forall_cons. split; [apply final_id_not_provisional|].
    by apply Forall_singleton.
  - reflexivity.
  - reflexivity.
  - reflexivity.
  - reflexivity.
  - apply container_is_page.
  - simpl. by destruct (falsy (ui_conversationId s)).
  - reflexivity.
Qed.

End optimistic.

(** C10, counterexample. A send that fails does not leave the state of
    the chat as it was before the send: the displayed list is restored,
    but the error of the component, empty before, is now set, and an
    error toast is shown. *)
Lemma failed_send_sets_error :
  let sent :=
    ChatPage.handleSendMessage (Some "alice") "Add milk"
      (mkInstant 5 "2026-02-10T10:00:05Z") (Rejected OtherValue)
      (mkInstant 6 "2026-02-10T10:00:06Z") sample_chat in
  sent.1 ≠ sample_chat
  ∧ ui_messages sent.1 = ui_messages sample_chat
  ∧ ui_error sample_chat = None
  ∧ ui_error sent.1 = Some "Failed to send message"
  ∧ sent.2 = [ToastError "Failed to send message"].
Proof.
  cbv zeta. split_and!; [|vm_compute; reflexivity..].
  intros Heq. apply (f_equal ui_error) in Heq. vm_compute in Heq.
  discriminate Heq.
Qed.

(** ** The properties at work on sample data *)

Lemma foreign_conversation_not_found_witness :
  handle_chat silent_run sample_world "alice" "hello" (Some 8)
  = handle_chat silent_run sample_world "alice" "hello" (Some 9)
  ∧ handle_chat silent_run sample_world "alice" "hello" (Some 8)
    = (sample_world, Raise NotFound).
Proof.
  destruct (foreign_conversation_not_found silent_run sample_world
              "alice" "hello" 8 9 bob_conversation) as (_ & _ & H1 & H2).
  - vm_compute. reflexivity.
  - simpl. discriminate.
  - vm_compute. reflexivity.
  - split; [exact H1|exact H2].
Defined.

Lemma silent_run_keeps_store : keeps_store silent_run.
Proof. intros w context user_id. simpl. split_and!; [reflexivity..|lia]. Defined.

Lemma sample_world_wf : wf sample_world.
Proof.
  split.
  - apply Forall_nil_2.
  - unfold keys_match. simpl.
    apply map_Forall_insert_2; [reflexivity|].
    apply map_Forall_insert_2; [reflexivity|].
    apply map_Forall_empty.
Defined.

Lemma turn_paired_when_reasoning_returns_witness :
  let final := handle_chat silent_run sample_world "alice" "hello" (Some 7) in
  final.2 = Ok (mkAgentResponse "Done." None)
  ∧ turn_paired (conversation_log final.1 7) = true.
Proof.
  assert (get_or_create_conversation sample_world "alice" (Some 7)
          = (sample_world, Ok alice_conversation)) as Hresolved
    by (vm_compute; reflexivity).
  assert (turn_paired (conversation_log sample_world 7) = true) as Hpaired
    by (vm_compute; reflexivity).
  destruct (turn_paired_when_reasoning_returns silent_run
              silent_run_keeps_store sample_world "alice" "hello" (Some 7)
              sample_world alice_conversation sample_world_wf Hresolved
              Hpaired) as (_ & _ & _ & H).
  specialize (H _ _ eq_refl). simpl in H.
  destruct H as (H1 & am & _ & _ & _ & _ & H2).
  split; [exact H1|exact H2].
Defined.

Lemma user_message_stored_before_reasoning_witness :
  Message.mk 100 7 "user" "hello" None 10
  ∈ messages (db (handle_chat timeout_run sample_world "alice" "hello"
                    (Some 7)).1).
Proof.
  assert (keeps_store timeout_run) as Hkeeps
    by (intros w context user_id; simpl; split_and!; [reflexivity..|lia]).
  assert (get_or_create_conversation sample_world "alice" (Some 7)
          = (sample_world, Ok alice_conversation)) as Hresolved
    by (vm_compute; reflexivity).
  destruct (user_message_stored_before_reasoning timeout_run Hkeeps
              sample_world "alice" "hello" (Some 7) sample_world
              alice_conversation sample_world_wf Hresolved)
    as (_ & _ & _ & _ & _ & _ & _ & H).
  exact H.
Defined.

Lemma add_message_marker_committed_with_insert_witness :
  reflects (db (run_steps 6 sample_world (start_request 7 "user" "hello" None)).1)
           (appended sample_world 7 "user" "hello" None).
Proof.
  assert (conversations (db sample_world) !! 7 = Some alice_conversation)
    as Hparent by (vm_compute; reflexivity).
  destruct (add_message_marker_committed_with_insert sample_world 7 "user"
              "hello" None alice_conversation Hparent 6)
    as [_ [Hsame|(_ & _ & H & _)]].
  - apply (f_equal messages) in Hsame. vm_compute in Hsame. discriminate Hsame.
  - exact H.
Defined.

Lemma lookup_by_description_policy_witness :
  ToolRegistry.find_task sample_policy "buy MILK" [milk; call] = Some milk
  ∧ ToolRegistry.find_task sample_policy "xyz" [milk; call] = None.
Proof.
  assert (NoDup [milk; call]) as Hnd.
  { apply NoDup_cons. split.
    - intros H. apply list_elem_of_singleton in H. discriminate H.
    - apply NoDup_singleton. }
  split.
  - destruct (lookup_by_description_policy sample_policy "buy MILK"
                [milk; call] Hnd) as (H & _).
    apply H.
    + apply list_elem_of_here.
    + vm_compute. reflexivity.
    + intros x Hx Hexact. apply elem_of_cons in Hx as [->|Hx]; [reflexivity|].
      apply list_elem_of_singleton in Hx as ->.
      vm_compute in Hexact. discriminate Hexact.
  - destruct (lookup_by_description_policy sample_policy "xyz"
                [milk; call] Hnd) as (_ & _ & _ & H & _).
    apply H.
    + intros x Hx. apply elem_of_cons in Hx as [->|Hx];
        [vm_compute; discriminate|].
      apply list_elem_of_singleton in Hx as ->. vm_compute. discriminate.
    + intros x Hx. apply elem_of_cons in Hx as [->|Hx];
        [vm_compute; lia|].
      apply list_elem_of_singleton in Hx as ->. vm_compute. lia.
Defined.


Lemma optimistic_message_rolled_back_witness :
  let greeting :=
    UiMessage.mk "8f1c" role_assistant "Hello!" None "2026-02-10T10:00:00Z" in
  let s := mkChatState [greeting] (Some "c1") false None in
  ui_messages
    (ChatPage.handleSendMessage (Some "alice") "Add milk"
       (mkInstant 5 "2026-02-10T10:00:05Z") (Rejected OtherValue)
       (mkInstant 6 "2026-02-10T10:00:06Z") s).1
  = [greeting].
Proof.
  simpl.
  refine (proj1 (optimistic_message_rolled_back "alice" "Add milk"
                   (mkInstant 5 "2026-02-10T10:00:05Z")
                   (mkInstant 6 "2026-02-10T10:00:06Z")
                   (mkChatState
                      [UiMessage.mk "8f1c" role_assistant "Hello!" None
                                    "2026-02-10T10:00:00Z"]
                      (Some "c1") false None)
                   _ OtherValue
                   (mkChatResponse "c1"
                      (UiMessage.mk "9a2d" role_assistant "Done" None
                                    "2026-02-10T10:00:06Z") None))).
  apply Forall_singleton. simpl. intros [n Hn].
  unfold template in Hn. simpl in Hn. discriminate Hn.
Defined.

(** * Part III: further properties of the code *)

(** ** Listing the conversations of a user *)

Lemma conversation_rows_spec w c :
  c ∈ conversation_rows w ↔ ∃ k, conversations (db w) !! k = Some c.
Proof.
  unfold conversation_rows. rewrite list_elem_of_fmap. split.
  - intros ([k c'] & Heq & Hin). simpl in Heq. subst c'. exists k.
    by apply elem_of_map_to_list.
  - intros [k Hk]. exists (k, c). split; [done|].
    by apply elem_of_map_to_list.
Qed.

Lemma user_conversations_elem w u c :
  c ∈ get_user_conversations w u ↔
  Conversation.user_id c = u ∧ ∃ k, conversations (db w) !! k = Some c.
Proof.
  unfold get_user_conversations. fold (conversation_rows w).
  rewrite merge_sort_Permutation, list_elem_of_filter.
  by rewrite conversation_rows_spec.
Qed.

(** X1. The listing of a user's conversations holds exactly the stored
    conversations that user owns, each as often as it is stored, and no
    conversation of anybody else; it is ordered by last activity, most
    recent first. *)
Theorem user_conversations_own_and_recent_first (w : World) (u : string) :
  get_user_conversations w u
    ≡ₚ filter (λ c, Conversation.user_id c = u) (conversation_rows w)
  ∧ (∀ c, c ∈ get_user_conversations w u ↔
          Conversation.user_id c = u
          ∧ ∃ k, conversations (db w) !! k = Some c)
  ∧ StronglySorted recent_first (get_user_conversations w u).
Proof.
  unfold get_user_conversations. fold (conversation_rows w). split_and!.
  - apply merge_sort_Permutation.
  - intros c. apply user_conversations_elem.
  - apply StronglySorted_merge_sort; apply _.
Qed.

(** ** Creating a conversation *)

Lemma create_conversation_rows w u title :
  ∀ k c, conversations (db w) !! k = Some c →
         conversations (db (create_conversation w u title).1) !! k = Some c.
Proof.
  intros k c Hk.
  destruct (create_conversation_spec w u title)
    as [(_ & Hdb & _)|(c' & Hnone & _ & _ & _ & _ & _ & Heq)].
  - by rewrite Hdb.
  - rewrite Heq. simpl.
    rewrite lookup_insert_ne; [done|]. intros <-. congruence.
Qed.

Lemma create_conversation_refused w u title e :
  (create_conversation w u title).2 = Raise e →
  db (create_conversation w u title).1 = db w.
Proof.
  destruct (create_conversation_spec w u title)
    as [(_ & Hdb & _)|(c' & _ & _ & _ & _ & _ & _ & Heq)]; [done|].
  by rewrite Heq.
Qed.

(** X2. Creating a conversation under a key that is free, for a user id
    and a title that fit their columns (255 and 200 characters),
    returns the new conversation: it belongs to the user it was created
    for, has the title given, and is found again under its id. From
    then on the ownership test passes for its owner and for nobody
    else, and the conversation is in the listing of its owner and in no
    other listing. *)
Theorem created_conversation_is_owned (w : World) (u : string)
    (title : option string) :
  conversations (db w) !! next_uuid w = None →
  String.length u ≤ user_id_limit →
  (∀ t, title = Some t → String.length t ≤ title_limit) →
  ∃ c, (create_conversation w u title).2 = Ok c
       ∧ Conversation.user_id c = u
       ∧ Conversation.title c = title
       ∧ Conversation.created_at c ≤ Conversation.updated_at c
       ∧ session_get (create_conversation w u title).1 (Conversation.id c)
         = Some c
       ∧ (∀ other,
            truthy (verify_conversation_ownership
                      (create_conversation w u title).1 (Conversation.id c)
                      other)
            = bool_decide (other = u))
       ∧ (∀ other,
            c ∈ get_user_conversations (create_conversation w u title).1 other
            → other = u)
       ∧ c ∈ get_user_conversations (create_conversation w u title).1 u.
Proof.
  intros Hfree Hu Ht.
  rewrite (create_conversation_free w u title Hfree Hu Ht). simpl.
  eexists. split; [reflexivity|]. simpl.
  assert (session_get
            (mkWorld
               (mkDatabase
                  (<[next_uuid w :=
                       Conversation.mk (next_uuid w) u title (clock w)
                                       (S (clock w))]> (conversations (db w)))
                  (messages (db w)) (tasks (db w)))
               (S (S (clock w))) (S (next_uuid w))) (next_uuid w)
          = Some (Conversation.mk (next_uuid w) u title (clock w) (S (clock w))))
    as Hget by (unfold session_get; simpl; by rewrite lookup_insert_eq).
  split_and!; [done|done|lia|exact Hget| | |].
  - intros other. unfold verify_conversation_ownership. rewrite Hget. simpl.
    apply bool_decide_ext. split; congruence.
  - intros other Hin.
    apply user_conversations_elem in Hin. by destruct Hin.
  - apply user_conversations_elem. split; [done|].
    exists (next_uuid w). exact Hget.
Qed.

(** X3. Creating a conversation never touches what is stored already:
    the messages and the tasks are as before, and every conversation
    found before is found unchanged afterwards. When the call raises,
    the database is as it was; when the key drawn is taken it does
    raise, and for values that fit their columns the error is an
    [IntegrityError]. *)
Theorem create_conversation_disturbs_nothing (w : World) (u : string)
    (title : option string) :
  messages (db (create_conversation w u title).1) = messages (db w)
  ∧ tasks (db (create_conversation w u title).1) = tasks (db w)
  ∧ (∀ k c, conversations (db w) !! k = Some c →
            conversations (db (create_conversation w u title).1) !! k = Some c)
  ∧ (∀ e, (create_conversation w u title).2 = Raise e →
          db (create_conversation w u title).1 = db w)
  ∧ (is_Some (conversations (db w) !! next_uuid w) →
     (∃ e, (create_conversation w u title).2 = Raise e)
     ∧ db (create_conversation w u title).1 = db w
     ∧ (String.length u ≤ user_id_limit →
        (∀ t, title = Some t → String.length t ≤ title_limit) →
        (create_conversation w u title).2 = Raise IntegrityError)).
Proof.
  split_and!.
  - apply create_conversation_messages.
  - destruct (create_conversation_spec w u title)
      as [(_ & Hdb & _)|(c' & _ & _ & _ & _ & _ & _ & Heq)].
    + by rewrite Hdb.
    + by rewrite Heq.
  - apply create_conversation_rows.
  - apply create_conversation_refused.
  - intros [c Hc].
    destruct (create_conversation_spec w u title)
      as [(He & Hdb & _)|(c' & Hnone & _)]; [|congruence].
    split_and!; [done|done|].
    intros Hu Ht. unfold create_conversation. cbn [uuid4 utcnow].
    unfold commit. cbn [flush flush1 db clock next_uuid Conversation.id
                        Conversation.user_id Conversation.title].
    by rewrite varchar_fits, varchar_null_fits, Hc by done.
Qed.

(** ** Appending a message, whatever happens *)

(** X4. Appending a message never changes who owns a conversation: after
    [add_message], whether it went through or raised, every conversation
    has the id, the owner, the title and the creation time it had, no
    conversation has appeared or gone, all conversations but the parent
    are untouched, and the tasks are as before. *)
Theorem add_message_keeps_ownership (w : World) (cid : uuid)
    (role content : string) (tc : option json) (k : uuid) :
  let w' := (add_message w cid role content tc).1 in
  tasks (db w') = tasks (db w)
  ∧ match conversations (db w) !! k with
    | Some c =>
        ∃ c', conversations (db w') !! k = Some c'
              ∧ Conversation.id c' = Conversation.id c
              ∧ Conversation.user_id c' = Conversation.user_id c
              ∧ Conversation.title c' = Conversation.title c
              ∧ Conversation.created_at c' = Conversation.created_at c
              ∧ (k ≠ cid → c' = c)
    | None => conversations (db w') !! k = None
    end.
Proof.
  simpl.
  destruct (add_message_cases w cid role content tc)
    as [(_ & Hdb & _)|(c0 & Hc0 & _ & _ & Hw)].
  - rewrite Hdb. split; [done|].
    destruct (conversations (db w) !! k) as [c|]; [|done]. by exists c.
  - rewrite Hw. simpl. split; [done|].
    destruct (decide (k = cid)) as [->|Hne].
    + rewrite Hc0, lookup_insert_eq. by eexists.
    + rewrite lookup_insert_ne by done.
      destruct (conversations (db w) !! k) as [c|]; [|done]. by exists c.
Qed.

(** X5. Appending to a conversation that does not exist raises and
    stores nothing: no message is left without a parent. The error is
    the [IntegrityError] of the foreign key (or of the CHECK on the
    role) for every role that fits its column of twenty characters;
    for a longer one it is what fitting the role to the column gives. *)
Theorem add_message_needs_parent (w : World) (cid : uuid)
    (role content : string) (tc : option json) :
  conversations (db w) !! cid = None →
  (add_message w cid role content tc).2
  = Raise (match varchar role_limit role with
           | Ok _ => IntegrityError
           | Raise e => e
           end)
  ∧ (String.length role ≤ role_limit →
     (add_message w cid role content tc).2 = Raise IntegrityError)
  ∧ db (add_message w cid role content tc).1 = db w.
Proof.
  intros Hnone.
  assert ((add_message w cid role content tc).2
          = Raise (match varchar role_limit role with
                   | Ok _ => IntegrityError
                   | Raise e => e
                   end)) as Hraise.
  { unfold add_message. cbn [uuid4 utcnow]. unfold session_get. cbn [db].
    rewrite Hnone. unfold commit.
    cbn [flush flush1 db clock next_uuid Message.role Message.id
         Message.conversation_id].
    destruct (varchar role_limit role) as [stored|e]; [|done].
    case_bool_decide; [|done]. case_bool_decide; [done|].
    by rewrite Hnone. }
  split_and!; [exact Hraise| |].
  - intros Hfits. rewrite Hraise. by rewrite varchar_fits.
  - destruct (add_message_cases w cid role content tc)
      as [(_ & Hdb & _)|(c0 & Hc0 & _)]; [done|congruence].
Qed.

(** ** The schema's promises are kept *)

Lemma integrity_after_append w cid c0 m :
  integrity (db w) →
  conversations (db w) !! cid = Some c0 →
  Message.id m ∉ message_ids (db w) →
  Message.conversation_id m = cid →
  integrity (db (after_append w cid c0 m)).
Proof.
  intros (Hnd & Hfk & Hkeys) Hc0 Hid Hm. unfold integrity, after_append. simpl.
  split_and!.
  - unfold message_ids. simpl. rewrite fmap_app. simpl.
    apply NoDup_app. split_and!; [done| |apply NoDup_singleton].
    intros x Hx ->%list_elem_of_singleton. by apply Hid.
  - apply Forall_app. split.
    + eapply Forall_impl; [exact Hfk|]. simpl. intros x [c Hx].
      destruct (decide (Message.conversation_id x = cid)) as [->|Hne].
      * rewrite lookup_insert_eq. by eexists.
      * rewrite lookup_insert_ne by done. by eexists.
    + apply Forall_singleton. rewrite Hm, lookup_insert_eq. by eexists.
  - apply map_Forall_insert_2; [|done]. simpl. exact (Hkeys _ _ Hc0).
Qed.

(** X6. Every operation of the access layer keeps the promises of the
    schema: when message keys are distinct, every message points to a
    conversation that exists and every conversation is filed under its
    own id before the operation, the same holds after it. *)
Theorem access_layer_keeps_integrity (w : World) (op : StoreOp) :
  integrity (db w) → integrity (db (exec_op w op)).
Proof.
  intros Hint. destruct op as [u|cid n|cid r c tc|u title|cid u]; simpl;
    try done.
  - destruct (add_message_cases w cid r c tc)
      as [(_ & Hdb & _)|(c0 & Hc0 & _ & Hid & Hw)].
    + by rewrite Hdb.
    + rewrite Hw. by apply integrity_after_append.
  - destruct (create_conversation_spec w u title)
      as [(_ & Hdb & _)|(c0 & Hk & Hkey & _ & _ & _ & _ & Heq)].
    + by rewrite Hdb.
    + rewrite Heq. simpl.
      destruct Hint as (Hnd & Hfk & Hkeys). unfold integrity. simpl.
      split_and!; [done| |by apply map_Forall_insert_2].
      eapply Forall_impl; [exact Hfk|]. simpl. intros x [c' Hx].
      destruct (decide (Message.conversation_id x = next_uuid w)) as [He|Hne].
      * rewrite He in Hx. congruence.
      * rewrite lookup_insert_ne by done. by eexists.
Qed.

(** ** What was written last is read back first *)

(** In a list sorted by a key, largest first, an element whose key is
    above all the others is at the head. *)
Lemma largest_at_head {A} (f : A → nat) (l rest : list A) (x : A) :
  StronglySorted (λ a b, f b ≤ f a) l →
  l ≡ₚ x :: rest →
  Forall (λ y, f y < f x) rest →
  ∃ l', l = x :: l' ∧ l' ≡ₚ rest.
Proof.
  intros Hsorted Hperm Hrest. destruct l as [|h t].
  { apply Permutation_length in Hperm. discriminate Hperm. }
  apply StronglySorted_inv in Hsorted as [_ Hh].
  assert (h ∈ x :: rest) as Hin by (rewrite <-Hperm; apply list_elem_of_here).
  apply elem_of_cons in Hin as [->|Hin].
  - exists t. split; [done|]. by apply Permutation_cons_inv in Hperm.
  - exfalso. rewrite Forall_forall in Hrest. specialize (Hrest _ Hin).
    assert (x ∈ h :: t) as Hx by (rewrite Hperm; apply list_elem_of_here).
    apply elem_of_cons in Hx as [->|Hx]; [lia|].
    rewrite Forall_forall in Hh. specialize (Hh _ Hx). simpl in Hh. lia.
Qed.

Lemma window_after_newest w cid limit m older :
  conversation_log w cid ≡ₚ m :: older →
  Forall (λ y, Message.created_at y < Message.created_at m) older →
  ∃ l', merge_sort newest_first (conversation_log w cid) = m :: l'
        ∧ l' ≡ₚ older
        ∧ StronglySorted newest_first l'
        ∧ get_conversation_messages w cid (S limit)
          = reverse (take limit l') ++ [m].
Proof.
  intros Hperm Hold.
  pose proof (newest_sorted w cid) as Hsorted.
  destruct (largest_at_head Message.created_at
              (merge_sort newest_first (conversation_log w cid)) older m)
    as (l' & Hl & Hl'); [exact Hsorted| |done|].
  { by rewrite merge_sort_Permutation. }
  exists l'. split_and!; [done|done| |].
  - rewrite Hl in Hsorted. by apply StronglySorted_inv in Hsorted as [? _].
  - unfold get_conversation_messages. fold (conversation_log w cid).
    rewrite Hl. simpl. by rewrite reverse_cons.
Qed.

(** X7. A message that was appended is the last one of the window read
    next: after [add_message] with one of the roles of the schema
    ([user], [assistant], [tool]) on a conversation whose stored
    messages were all created before now, fetching the recent messages
    with any limit above zero returns a window that ends with the new
    message, which carries the conversation, role, content and tool
    calls given. With any other role the call raises, and the window is
    the one from before. *)
Theorem appended_message_is_read_back_last (w : World) (cid : uuid)
    (role content : string) (tc : option json) (c : Conversation.t)
    (limit : nat) :
  uuids_fresh w →
  conversations (db w) !! cid = Some c →
  Forall (λ m, Message.created_at m < clock w) (conversation_log w cid) →
  0 < limit →
  (role ∈ role_values →
   ∃ m, (add_message w cid role content tc).2 = Ok m
        ∧ Message.conversation_id m = cid
        ∧ Message.role m = role
        ∧ Message.content m = content
        ∧ Message.tool_calls m = tc
        ∧ last (get_conversation_messages
                  (add_message w cid role content tc).1 cid limit)
          = Some m)
  ∧ (role ∉ role_values →
     (∃ e, (add_message w cid role content tc).2 = Raise e)
     ∧ get_conversation_messages (add_message w cid role content tc).1 cid
                                 limit
       = get_conversation_messages w cid limit).
Proof.
  intros Hfresh Hparent Hpast Hlimit. split.
  - intros Hrole.
    rewrite (add_message_ok w cid c Hfresh Hparent) by done.
    exists (appended w cid role content tc). simpl.
    split_and!; [done..|].
    destruct limit as [|limit]; [lia|].
    destruct (window_after_newest
                (after_append w cid c (appended w cid role content tc)) cid
                limit (appended w cid role content tc)
                (conversation_log w cid))
      as (l' & _ & _ & _ & Hget).
    + rewrite (conversation_log_snoc w _ cid
                 (appended w cid role content tc)); [|done|done].
      by rewrite Permutation_app_comm.
    + exact Hpast.
    + rewrite Hget. apply last_snoc.
  - intros Hrole.
    destruct (add_message_cases w cid role content tc)
      as [(He & Hdb & _)|(c0 & _ & Hin & _)]; [|done].
    split; [done|]. unfold get_conversation_messages. by rewrite Hdb.
Qed.

Lemma touched_row_sorts_first (rows : gmap uuid Conversation.t) cid c' :
  (∀ k y, rows !! k = Some y → k ≠ cid →
          Conversation.updated_at y < Conversation.updated_at c') →
  ∃ l', merge_sort recent_first
          (filter (λ x, Conversation.user_id x = Conversation.user_id c')
                  (map_to_list (<[cid := c']> rows)).*2)
        = c' :: l'.
Proof.
  intros Hpast.
  assert ((map_to_list (<[cid := c']> rows)).*2
          ≡ₚ c' :: (map_to_list (delete cid rows)).*2) as Hrows.
  { rewrite <-insert_delete_eq.
    rewrite map_to_list_insert by apply lookup_delete_eq. done. }
  destruct (largest_at_head Conversation.updated_at
              (merge_sort recent_first
                 (filter (λ x, Conversation.user_id x = Conversation.user_id c')
                         (map_to_list (<[cid := c']> rows)).*2))
              (filter (λ x, Conversation.user_id x = Conversation.user_id c')
                      (map_to_list (delete cid rows)).*2)
              c') as (l' & Heq & _).
  - apply (StronglySorted_merge_sort recent_first).
  - rewrite merge_sort_Permutation, Hrows. by rewrite filter_cons_True.
  - apply Forall_forall. intros y Hy.
    apply list_elem_of_filter in Hy as [_ Hy].
    apply list_elem_of_fmap in Hy as ([k y'] & Heq & Hy). simpl in Heq.
    subst y'. apply elem_of_map_to_list in Hy.
    apply lookup_delete_Some in Hy as [Hne Hy]. by eapply Hpast.
  - by exists l'.
Qed.

(** X8. A conversation that got a message moves to the front of its
    owner's listing: after [add_message] with one of the roles of the
    schema, with the last activity of every stored conversation in the
    past, the listing of the owner's conversations starts with the
    parent, whose last activity is now later than the creation of the
    message. With any other role the call raises and every listing is
    the one from before. *)
Theorem appended_conversation_listed_first (w : World) (cid : uuid)
    (role content : string) (tc : option json) (c : Conversation.t) :
  uuids_fresh w →
  conversations (db w) !! cid = Some c →
  map_Forall (λ _ c', Conversation.updated_at c' < clock w)
             (conversations (db w)) →
  (role ∈ role_values →
   ∃ c', head (get_user_conversations (add_message w cid role content tc).1
                                      (Conversation.user_id c))
         = Some c'
         ∧ conversations (db (add_message w cid role content tc).1) !! cid
           = Some c'
         ∧ Conversation.user_id c' = Conversation.user_id c
         ∧ ∃ m, (add_message w cid role content tc).2 = Ok m
                ∧ Message.created_at m < Conversation.updated_at c')
  ∧ (role ∉ role_values →
     (∃ e, (add_message w cid role content tc).2 = Raise e)
     ∧ ∀ u, get_user_conversations (add_message w cid role content tc).1 u
            = get_user_conversations w u).
Proof.
  intros Hfresh Hparent Hpast. split.
  - intros Hrole.
    rewrite (add_message_ok w cid c Hfresh Hparent) by done.
    exists (Conversation.set_updated_at (S (clock w)) c). split_and!.
    + destruct (touched_row_sorts_first (conversations (db w)) cid
                  (Conversation.set_updated_at (S (clock w)) c))
        as [l' Hl'].
      * intros k y Hy _. specialize (Hpast _ _ Hy). simpl in *. lia.
      * unfold get_user_conversations, after_append.
        cbn [db conversations fst].
        change (Conversation.user_id c)
          with (Conversation.user_id
                  (Conversation.set_updated_at (S (clock w)) c)).
        by rewrite Hl'.
    + simpl. by rewrite lookup_insert_eq.
    + done.
    + eexists. split; [reflexivity|]. simpl. lia.
  - intros Hrole.
    destruct (add_message_cases w cid role content tc)
      as [(He & Hdb & _)|(c0 & _ & Hin & _)]; [|done].
    split; [done|]. intros u. unfold get_user_conversations. by rewrite Hdb.
Qed.

(** ** A turn is in the window of the next one *)

Lemma resolve_clock w user_id conversation_id :
  clock w ≤ clock (get_or_create_conversation w user_id conversation_id).1.
Proof.
  destruct conversation_id as [cid|]; simpl.
  - destruct (truthy _); [|done]. by destruct (session_get w cid).
  - destruct (create_conversation_spec w user_id None)
      as [(_ & _ & _ & Hclock)|(c & _ & _ & _ & _ & _ & _ & Heq)]; [done|].
    rewrite Heq. simpl. lia.
Qed.

Section next_turn.

Variable run : AgentRun.
Hypothesis run_keeps_store : keeps_store run.
Hypothesis run_keeps_clock : keeps_clock run.

Variables (w : World) (caller message : string).
Variable conversation_id : option uuid.
Variables (w1 : World) (conversation : Conversation.t).

Hypothesis wf_w : wf w.
Hypothesis resolved :
  get_or_create_conversation w caller conversation_id = (w1, Ok conversation).

Let cid : uuid := Conversation.id conversation.
Let um : Message.t := appended w1 cid "user" message None.
Let w2 : World := after_append w1 cid conversation um.
Let context : list ContextItem :=
  (Stored <$> get_conversation_messages w1 cid context_limit)
  ++ [NewText message].

Hypothesis past :
  Forall (λ m, Message.created_at m < clock w) (conversation_log w cid).

(** X9. After a turn whose reasoning step returned, the messages of the
    turn are what the next turn reads last: fetching the recent
    messages of the conversation with a limit of two or more (the
    handler uses twenty) returns a window that ends with the user
    message of the turn followed by its assistant message, and
    everything before them is from the log as it was before the turn. *)
Theorem turn_is_in_the_next_window (w3 : World) (response : AgentResponse)
    (limit : nat) :
  run w2 context caller = (w3, Ok response) →
  2 ≤ limit →
  ∃ earlier am,
    Message.role am = "assistant"
    ∧ Message.content am = response_content response
    ∧ get_conversation_messages
        (handle_chat run w caller message conversation_id).1 cid limit
      = earlier ++ [um; am]
    ∧ Forall (λ m, m ∈ conversation_log w cid) earlier.
Proof.
  intros Hrun Hlimit.
  destruct (resolved_facts w caller message conversation_id w1 conversation
              wf_w resolved) as (Hmsgs & _ & _).
  destruct (reply_appended run run_keeps_store w caller message
              conversation_id w1 conversation wf_w resolved w3 response Hrun)
    as [Heq Hm3].
  simpl in Heq. fold cid in Heq. rewrite Heq. simpl.
  set (am := appended w3 cid "assistant" (response_content response)
                      (response_tool_calls response)).
  exists (reverse
            (take (limit - 2)
               (tail (tail (merge_sort newest_first
                              (conversation_log w cid ++ [um; am])))))), am.
  assert (clock w ≤ clock w1) as Hc1.
  { pose proof (resolve_clock w caller conversation_id) as H.
    by rewrite resolved in H. }
  assert (clock w2 ≤ clock w3) as Hc3.
  { pose proof (run_keeps_clock w2 context caller) as H.
    by rewrite Hrun in H. }
  assert (conversation_log
            (after_append w3 cid
               (Conversation.set_updated_at (S (clock w1)) conversation) am)
            cid
          = conversation_log w cid ++ [um; am]) as Hlog.
  { unfold conversation_log. simpl. rewrite Hm3.
    rewrite !filter_app, !filter_cons_True, filter_nil by done.
    by rewrite <-app_assoc. }
  destruct limit as [|[|limit]]; [lia|lia|].
  destruct (window_after_newest
              (after_append w3 cid
                 (Conversation.set_updated_at (S (clock w1)) conversation) am)
              cid (S limit) am (um :: conversation_log w cid))
    as (l1 & Hsort1 & Hl1 & Hs1 & Hget).
  { rewrite Hlog. rewrite (Permutation_app_comm _ [um; am]). simpl.
    apply perm_swap. }
  { apply Forall_cons. split; [simpl in *; lia|].
    eapply Forall_impl; [exact past|]. simpl in *. intros x Hx. lia. }
  destruct (largest_at_head Message.created_at l1 (conversation_log w cid) um)
    as (l2 & -> & Hl2); [exact Hs1|exact Hl1| |].
  { eapply Forall_impl; [exact past|]. simpl in *. intros x Hx. lia. }
  split_and!; [done|done| |].
  - rewrite Hget. rewrite Hlog in Hsort1. rewrite Hsort1. simpl.
    rewrite Nat.sub_0_r, reverse_cons, <-app_assoc. done.
  - rewrite Hlog in Hsort1. rewrite Hsort1. simpl. rewrite Nat.sub_0_r.
    apply Forall_forall. intros x Hx. rewrite elem_of_reverse in Hx.
    apply elem_of_take in Hx as (i & Hx & _).
    apply list_elem_of_lookup_2 in Hx. by rewrite <-Hl2.
Qed.

End next_turn.

(** The clock stays ahead of every stored instant, and the keys stay
    fresh, through every operation of the access layer; so the worlds
    reached from an empty database meet the conditions above. *)
Lemma timestamps_past_exec_op w op :
  timestamps_past w → timestamps_past (exec_op w op).
Proof.
  intros [Hm Hc]. destruct op as [u|cid n|cid r c tc|u title|cid u]; simpl;
    try done.
  - destruct (add_message_cases w cid r c tc)
      as [(_ & Hdb & _ & Hclock & _)|(c0 & Hc0 & _ & _ & Hw)].
    + unfold timestamps_past. rewrite Hdb.
      split.
      * eapply Forall_impl; [exact Hm|]. simpl. intros x Hx. lia.
      * eapply map_Forall_impl; [exact Hc|]. simpl. intros k x Hx. lia.
    + rewrite Hw. unfold timestamps_past, after_append. simpl. split.
      * apply Forall_app. split.
        -- eapply Forall_impl; [exact Hm|]. simpl. intros x Hx. lia.
        -- apply Forall_singleton. simpl. lia.
      * apply map_Forall_insert_2; [simpl; lia|].
        eapply map_Forall_impl; [exact Hc|]. simpl. intros k x Hx. lia.
  - destruct (create_conversation_spec w u title)
      as [(_ & Hdb & _ & Hclock)|(c0 & _ & _ & _ & _ & _ & Hup & Heq)].
    + unfold timestamps_past. rewrite Hdb. split.
      * eapply Forall_impl; [exact Hm|]. simpl. intros x Hx. lia.
      * eapply map_Forall_impl; [exact Hc|]. simpl. intros k x Hx. lia.
    + rewrite Heq. unfold timestamps_past. simpl. split.
      * eapply Forall_impl; [exact Hm|]. simpl. intros x Hx. lia.
      * apply map_Forall_insert_2; [simpl; lia|].
        eapply map_Forall_impl; [exact Hc|]. simpl. intros k x Hx. lia.
Qed.

Lemma wf_exec_op w op : wf w → wf (exec_op w op).
Proof.
  intros Hwf. destruct op as [u|cid n|cid r c tc|u title|cid u]; simpl;
    try done.
  - by apply wf_add_message.
  - by apply wf_create_conversation.
Qed.

(** ** What the chat input sends *)

Section chat_input_sending.

Import ChatInput.

Lemma trim_start_clean s c :
  first_char (trim_start s) = Some c → is_whitespace c = false.
Proof.
  induction s as [|c' s IH]; simpl; [done|].
  destruct (is_whitespace c') eqn:Hc'; [exact IH|].
  simpl. by intros [= <-].
Qed.

Lemma trim_end_first s c :
  first_char (trim_end s) = Some c → first_char s = Some c.
Proof.
  destruct s as [|c' s]; simpl; [done|].
  destruct (trim_end s); [destruct (is_whitespace c')|]; simpl; done.
Qed.

Lemma trim_end_clean s c :
  last_char (trim_end s) = Some c → is_whitespace c = false.
Proof.
  induction s as [|c' s IH]; simpl; [done|].
  destruct (trim_end s) as [|c'' rest] eqn:Hs.
  - destruct (is_whitespace c') eqn:Hc'; simpl; [done|]. by intros [= <-].
  - simpl. exact IH.
Qed.

Lemma trim_start_blank s : trim_start s = EmptyString ↔ all_whitespace s = true.
Proof.
  induction s as [|c s IH]; simpl; [done|].
  destruct (is_whitespace c); simpl; [exact IH|]. split; discriminate.
Qed.

Lemma trim_end_blank s : trim_end s = EmptyString → all_whitespace s = true.
Proof.
  induction s as [|c s IH]; simpl; [done|].
  destruct (trim_end s) as [|c' rest]; [|discriminate].
  destruct (is_whitespace c); simpl; [intros _; by apply IH|discriminate].
Qed.

Lemma trim_blank s : trim s = EmptyString ↔ all_whitespace s = true.
Proof.
  unfold trim. split.
  - intros H. apply trim_start_blank.
    pose proof (trim_end_blank _ H) as Hall.
    destruct (trim_start s) as [|c rest] eqn:Hs; [done|].
    assert (is_whitespace c = false) as Hc
      by (apply (trim_start_clean s); by rewrite Hs).
    simpl in Hall. by rewrite Hc in Hall.
  - intros H. apply trim_start_blank in H. by rewrite H.
Qed.

Lemma trim_no_outer_whitespace s : no_outer_whitespace (trim s).
Proof.
  unfold trim. split.
  - intros c Hc. apply trim_end_first in Hc. by eapply trim_start_clean.
  - intros c Hc. by eapply trim_end_clean.
Qed.

Lemma eqb_empty s : String.eqb s "" = true ↔ s = EmptyString.
Proof. destruct s; simpl; split; done. Qed.

Lemma submit_cases p message :
  (isLoading p = false ∧ disabled p = false
   ∧ all_whitespace message = false
   ∧ handleSubmit p message = (EmptyString, Some (trim message)))
  ∨ ((isLoading p = true ∨ disabled p = true
      ∨ all_whitespace message = true)
     ∧ handleSubmit p message = (message, None)).
Proof.
  unfold handleSubmit.
  destruct (String.eqb (trim message) "") eqn:He; simpl.
  - apply eqb_empty, trim_blank in He. right. by auto.
  - assert (all_whitespace message = false) as Hall.
    { destruct (all_whitespace message) eqn:H; [|done].
      apply trim_blank, eqb_empty in H. congruence. }
    destruct (isLoading p), (disabled p); simpl; by auto.
Qed.

Lemma submit_sends_iff p message :
  is_Some (handleSubmit p message).2 ↔
  isLoading p = false ∧ disabled p = false ∧ all_whitespace message = false.
Proof.
  destruct (submit_cases p message) as [(H1 & H2 & H3 & ->)|[H ->]]; simpl.
  - split; [done|]. by eexists.
  - split; [by intros [? ?]|]. intros (H1 & H2 & H3).
    destruct H as [H|[H|H]]; congruence.
Qed.

(** X10. A submit hands a message on exactly when the input is neither
    loading nor disabled and the text is not blank (holds a character
    that is not white space). The message handed on is the text without
    the white space around it, so it neither starts nor ends with white
    space and is not empty, and the input is cleared; when nothing is
    handed on, the text stays as it is. *)
Theorem submit_sends_trimmed_text (p : Props) (message : string) :
  (is_Some (handleSubmit p message).2 ↔
     isLoading p = false ∧ disabled p = false
     ∧ all_whitespace message = false)
  ∧ (∀ s, (handleSubmit p message).2 = Some s →
          s = trim message ∧ no_outer_whitespace s ∧ s ≠ EmptyString
          ∧ (handleSubmit p message).1 = EmptyString)
  ∧ ((handleSubmit p message).2 = None →
     (handleSubmit p message).1 = message).
Proof.
  split; [apply submit_sends_iff|].
  destruct (submit_cases p message) as [(H1 & H2 & H3 & ->)|[H ->]]; simpl.
  - split; [|done]. intros s [= <-].
    split_and!; [done|apply trim_no_outer_whitespace| |done].
    intros Hempty. apply trim_blank in Hempty. congruence.
  - by split.
Qed.

(** X11. The send button is enabled exactly when pressing it would hand
    a message on. *)
Theorem send_button_enabled_iff_submit_sends (p : Props) (message : string) :
  sendButtonDisabled p message = false ↔ is_Some (handleSubmit p message).2.
Proof.
  unfold sendButtonDisabled, handleSubmit.
  destruct (String.eqb (trim message) ""), (isLoading p), (disabled p);
    simpl; split; try done; try (by intros [? ?]); by eexists.
Qed.

Lemma step_sends_only_if_may_send p e message :
  is_Some (step p e message).2 → may_send (p, e).
Proof.
  unfold may_send. simpl. destruct e as [value|a|key shiftKey|]; simpl.
  - by intros [? ?].
  - by intros [? ?].
  - unfold handleKeyDown.
    destruct (String.eqb key "Enter") eqn:Hk; simpl; [|by intros [? ?]].
    destruct shiftKey; simpl; [by intros [? ?]|].
    apply String.eqb_eq in Hk as ->.
    intros H. apply submit_sends_iff in H as (H1 & H2 & _).
    split_and!; [done|done|by right].
  - intros H. apply submit_sends_iff in H as (H1 & H2 & _).
    split_and!; [done|done|by left].
Qed.

End chat_input_sending.

(** X12. Through any sequence of events, a message is handed on only by
    a press of the send button or of Enter without Shift while the
    input is neither loading nor disabled: there are at most as many
    messages as such events, so a busy input sends nothing, and typing,
    quick actions, Shift+Enter and other keys never send. *)
Theorem messages_come_from_send_events
    (events : list (ChatInput.Props * ChatInput.Event)) (message : string) :
  length (ChatInput.run events message).2 ≤ length (filter may_send events)
  ∧ (Forall (λ pe, busy pe.1) events → (ChatInput.run events message).2 = []).
Proof.
  assert (∀ evs msg, length (ChatInput.run evs msg).2
                     ≤ length (filter may_send evs)) as Hlen.
  { induction evs as [|[p e] rest IH]; intros msg; simpl; [done|].
    pose proof (step_sends_only_if_may_send p e msg) as Hstep.
    destruct (ChatInput.step p e msg) as [msg' sent]. simpl in Hstep.
    specialize (IH msg').
    destruct (ChatInput.run rest msg') as [final later]. simpl in *.
    rewrite length_app, filter_cons.
    destruct sent as [s|]; simpl.
    - rewrite decide_True by (apply Hstep; by eexists). simpl. lia.
    - destruct (decide (may_send (p, e))); simpl; lia. }
  split; [apply Hlen|].
  intros Hbusy. specialize (Hlen events message).
  assert (filter may_send events = []) as Hnone.
  { clear Hlen. induction events as [|[p e] rest IH]; [done|].
    apply Forall_cons in Hbusy as [Hp Hrest].
    rewrite filter_cons_False; [by apply IH|].
    intros (H1 & H2 & _). simpl in *. destruct Hp; congruence. }
  rewrite Hnone in Hlen.
  destruct (ChatInput.run events message) as [final sent]. simpl in *.
  destruct sent; [done|simpl in Hlen; lia].
Qed.

(** ** A chat over several messages *)

Lemma send_messages u e s :
  Forall (λ m, ¬ provisional (UiMessage.id m)) (ui_messages s) →
  ui_messages
    (ChatPage.handleSendMessage (Some u) (ex_content e) (ex_started e)
       (ex_outcome e) (ex_settled e) s).1
  = ui_messages s ++ transcript e.
Proof.
  intros Hs. unfold transcript. destruct (ex_outcome e) as [response|err].
  - by apply page_fulfilled.
  - rewrite page_rejected by done. by rewrite app_nil_r.
Qed.

Lemma transcript_not_provisional e :
  reply_not_provisional e →
  Forall (λ m, ¬ provisional (UiMessage.id m)) (transcript e).
Proof.
  unfold reply_not_provisional, transcript.
  destruct (ex_outcome e) as [response|err]; [|by intros _; apply Forall_nil_2].
  intros Hr. apply Forall_cons. split; [apply final_id_not_provisional|].
  by apply Forall_singleton.
Qed.

Lemma page_conversation u e s :
  ui_conversationId
    (ChatPage.handleSendMessage (Some u) (ex_content e) (ex_started e)
       (ex_outcome e) (ex_settled e) s).1
  = if falsy (ui_conversationId s)
    then match ex_outcome e with
         | Fulfilled response => Some (chat_conversation_id response)
         | Rejected _ => ui_conversationId s
         end
    else ui_conversationId s.
Proof.
  simpl. destruct (ex_outcome e) as [response|err]; simpl.
  - by destruct (falsy (ui_conversationId s)).
  - by destruct (falsy (ui_conversationId s)).
Qed.

Lemma effect_keeps_conversation user before history s :
  ui_conversationId (conversation_effect user before history s)
  = ui_conversationId s.
Proof.
  unfold conversation_effect.
  destruct (decide (ui_conversationId s = before)); [done|].
  unfold loadConversationHistory. destruct user as [u|]; [|done].
  destruct (falsy (ui_conversationId s)); [done|]. by destruct history.
Qed.

Lemma send_held u e s :
  falsy (ui_conversationId s) = false →
  send (Some u) e s
  = (ChatPage.handleSendMessage (Some u) (ex_content e) (ex_started e)
       (ex_outcome e) (ex_settled e) s).1.
Proof.
  intros Hheld. unfold send, conversation_effect.
  rewrite decide_True; [done|]. by rewrite page_conversation, Hheld.
Qed.

(** X13. In a chat that holds a conversation, messages sent one after
    the other, each settled before the next, leave in the displayed
    list exactly the list from before followed, for every send that
    succeeded and in the order of sending, by the user message and the
    assistant message of that send; sends that failed leave no trace,
    and no provisional message remains. The conversation id does not
    change on the way, so the effect that reloads the history does not
    run. This holds for a list without provisional messages and replies
    whose ids are not provisional ones. *)
Theorem sends_leave_their_transcript (u : string) (exchanges : list Exchange)
    (s : ChatState) :
  falsy (ui_conversationId s) = false →
  Forall (λ m, ¬ provisional (UiMessage.id m)) (ui_messages s) →
  Forall reply_not_provisional exchanges →
  ui_messages (send_all (Some u) exchanges s)
  = ui_messages s ++ concat (transcript <$> exchanges)
  ∧ Forall (λ m, ¬ provisional (UiMessage.id m))
           (ui_messages (send_all (Some u) exchanges s))
  ∧ ui_conversationId (send_all (Some u) exchanges s) = ui_conversationId s.
Proof.
  revert s. induction exchanges as [|e rest IH]; intros s Hheld Hs Hreplies.
  - simpl. by rewrite app_nil_r.
  - cbn [send_all]. rewrite fmap_cons. cbn [concat].
    apply Forall_cons in Hreplies as [He Hrest].
    rewrite send_held by done.
    pose proof (send_messages u e s Hs) as Hstep.
    pose proof (page_conversation u e s) as Hconv. rewrite Hheld in Hconv.
    destruct (IH (ChatPage.handleSendMessage (Some u) (ex_content e)
                    (ex_started e) (ex_outcome e) (ex_settled e) s).1)
      as (Hmsgs & Hclean & Hsame); [by rewrite Hconv| |done|].
    { rewrite Hstep. apply Forall_app. split; [done|].
      by apply transcript_not_provisional. }
    split_and!; [|done|by rewrite Hsame].
    by rewrite Hmsgs, Hstep, <-app_assoc.
Qed.

Lemma send_conversation u e s :
  ui_conversationId (send (Some u) e s)
  = if falsy (ui_conversationId s)
    then match ex_outcome e with
         | Fulfilled response => Some (chat_conversation_id response)
         | Rejected _ => ui_conversationId s
         end
    else ui_conversationId s.
Proof.
  unfold send. rewrite effect_keeps_conversation. apply page_conversation.
Qed.

(** X14. A chat stays with its conversation: once the component holds a
    conversation id, no sequence of sends changes it. A chat without
    one takes the id of the first response that arrives, failed sends
    before it notwithstanding, and keeps that id from then on. *)
Theorem chat_keeps_its_conversation (u : string) (s : ChatState) :
  (∀ exchanges id,
     ui_conversationId s = Some id → id ≠ EmptyString →
     ui_conversationId (send_all (Some u) exchanges s) = Some id)
  ∧ (∀ failed e rest response,
       falsy (ui_conversationId s) = true →
       Forall (λ x, ∃ err, ex_outcome x = Rejected err) failed →
       ex_outcome e = Fulfilled response →
       chat_conversation_id response ≠ EmptyString →
       ui_conversationId (send_all (Some u) (failed ++ e :: rest) s)
       = Some (chat_conversation_id response)).
Proof.
  assert (∀ exchanges s' id,
            ui_conversationId s' = Some id → id ≠ EmptyString →
            ui_conversationId (send_all (Some u) exchanges s') = Some id)
    as Hkept.
  { induction exchanges as [|e rest IH]; intros s' id Hid Hne; [done|].
    cbn [send_all].
    apply IH; [|done]. rewrite send_conversation, Hid. simpl.
    destruct (String.eqb id "") eqn:He; [|done].
    apply String.eqb_eq in He. done. }
  split; [intros exchanges id; apply Hkept|].
  intros failed. revert s.
  induction failed as [|x failed IH]; intros s e rest response Hnew Hfailed
    He Hne.
  - cbn [app send_all].
    apply Hkept; [|done]. by rewrite send_conversation, Hnew, He.
  - cbn [app send_all]. apply Forall_cons in Hfailed as [[err Hx] Hfailed].
    apply IH; [|done|done|done].
    by rewrite send_conversation, Hnew, Hx.
Qed.

(** X15. A new chat and its first answer: after "New Chat", a send that
    succeeds with a named conversation leaves exactly the user message
    and the assistant message in the list and makes the component hold
    that conversation. The history load this sets off then replaces
    the list by the history of the server when it succeeds, and leaves
    the two messages when it fails; either way the conversation stays
    and the load is over. *)
Theorem new_chat_first_answer (u content : string) (started settled : Instant)
    (response : ChatResponse) (s : ChatState)
    (loaded : Awaited (list UiMessage.t)) :
  chat_conversation_id response ≠ EmptyString →
  let sent :=
    (ChatPage.handleSendMessage (Some u) content started (Fulfilled response)
       settled (handleNewChat s)).1 in
  let exchange :=
    [UiMessage.mk (template "user-" (now_ms settled)) role_user content None
                  (iso settled);
     chat_message response] in
  ui_messages sent = exchange
  ∧ ui_conversationId sent = Some (chat_conversation_id response)
  ∧ ui_error sent = None
  ∧ ui_isLoading sent = false
  ∧ (loadConversationHistory (Some u) loaded sent true).2 = false
  ∧ ui_conversationId (loadConversationHistory (Some u) loaded sent true).1
    = Some (chat_conversation_id response)
  ∧ ui_messages (loadConversationHistory (Some u) loaded sent true).1
    = match loaded with
      | Resolves history => history
      | Rejects _ => exchange
      end.
Proof.
  intros Hnamed. cbv zeta.
  assert (ui_messages
            (ChatPage.handleSendMessage (Some u) content started
               (Fulfilled response) settled (handleNewChat s)).1
          = [UiMessage.mk (template "user-" (now_ms settled)) role_user
                          content None (iso settled);
             chat_message response]) as Hmsgs.
  { rewrite page_fulfilled; [done|]. apply Forall_nil_2. }
  assert (String.eqb (chat_conversation_id response) "" = false) as Hne.
  { destruct (String.eqb _ "") eqn:He; [|done].
    apply String.eqb_eq in He. done. }
  split_and!; [exact Hmsgs|done|done|done|..].
  - unfold loadConversationHistory. simpl. by rewrite Hne.
  - unfold loadConversationHistory. simpl. rewrite Hne. by destruct loaded.
  - unfold loadConversationHistory.
    cbn [ui_conversationId ChatPage.handleSendMessage handleNewChat fst falsy].
    simpl falsy. rewrite Hne. destruct loaded; [done|]. cbn [ui_messages fst].
    exact Hmsgs.
Qed.

(** ** The tasks page *)

Section tasks_page.

Import TasksPage.

Lemma completed_pending_split (ts : list TaskView.t) :
  length (filter (λ t, TaskView.completed t = true) ts)
  + length (filter (λ t, TaskView.completed t = false) ts)
  = length ts.
Proof.
  induction ts as [|t ts IH]; [done|].
  rewrite !filter_cons. destruct (TaskView.completed t); simpl in *; lia.
Qed.

(** X16. The counters of the tasks page agree with its filter tabs: the
    completed and the pending count add up to the number of tasks, the
    "completed" tab shows as many tasks as the completed count says,
    the "pending" tab as many as the pending count, the "all" tab shows
    every task, and every tab shows tasks of the list in their order. *)
Theorem task_counts_match_tabs (s : State) :
  completedCount s + pendingCount s = length (tasks s)
  ∧ length (filteredTasks (setFilter completed s)) = completedCount s
  ∧ length (filteredTasks (setFilter pending s)) = pendingCount s
  ∧ filteredTasks (setFilter all s) = tasks s
  ∧ ∀ f, sublist (filteredTasks (setFilter f s)) (tasks s).
Proof.
  pose proof (completed_pending_split (tasks s)) as Hsplit.
  assert (filteredTasks (setFilter completed s)
          = filter (λ t, TaskView.completed t = true) (tasks s)) as Hc
    by (by apply list_filter_iff).
  assert (filteredTasks (setFilter pending s)
          = filter (λ t, TaskView.completed t = false) (tasks s)) as Hp
    by (by apply list_filter_iff).
  rewrite Hc, Hp. unfold pendingCount, completedCount.
  split_and!.
  - lia.
  - done.
  - lia.
  - unfold filteredTasks. simpl. apply filter_all. by apply Forall_forall.
  - intros f. apply sublist_filter.
Qed.

Lemma replace_task_lookup updated (ts : list TaskView.t) i t :
  ts !! i = Some t →
  replace_task updated ts !! i
  = Some (if decide (TaskView.id t = TaskView.id updated) then updated else t).
Proof.
  intros Hi. unfold replace_task. by rewrite list_lookup_fmap, Hi.
Qed.

Lemma replace_task_ids updated (ts : list TaskView.t) :
  TaskView.id <$> replace_task updated ts = TaskView.id <$> ts.
Proof.
  unfold replace_task. rewrite <-list_fmap_compose.
  apply list_fmap_ext. intros i t _. simpl.
  by destruct (decide (TaskView.id t = TaskView.id updated)) as [->|].
Qed.

(** X17. Toggling or updating a task replaces it in place: after a
    successful toggle (and likewise after a successful update of the
    task being edited) the list has the same ids in the same order,
    every task with the id of the returned task is now the returned
    task, every other task is untouched, and a returned task whose id
    is not in the list changes nothing. *)
Theorem toggle_replaces_in_place (u : string) (taskId : nat)
    (updated : TaskView.t) (data : TaskCreate) (s : State) :
  let toggled :=
    tasks (handleToggleComplete (Some u) taskId (Resolves updated) s).1.1 in
  TaskView.id <$> toggled = TaskView.id <$> tasks s
  ∧ (∀ i t, tasks s !! i = Some t →
            toggled !! i
            = Some (if decide (TaskView.id t = TaskView.id updated)
                    then updated else t))
  ∧ (Forall (λ t, TaskView.id t ≠ TaskView.id updated) (tasks s) →
     toggled = tasks s)
  ∧ (is_Some (editingTask s) →
     tasks (handleUpdateTask (Some u) data (Resolves updated) s).1.1 = toggled
     ∧ editingTask (handleUpdateTask (Some u) data (Resolves updated) s).1.1
       = None).
Proof.
  simpl. split_and!.
  - apply replace_task_ids.
  - intros i t. apply replace_task_lookup.
  - intros Hnone. unfold replace_task.
    rewrite <-(list_fmap_id (tasks s)) at 2.
    apply list_fmap_ext. intros i t Hi. simpl.
    rewrite Forall_forall in Hnone.
    rewrite decide_False; [done|].
    apply Hnone. by eapply list_elem_of_lookup_2.
  - intros [editing He]. unfold handleUpdateTask. by rewrite He.
Qed.

(** X18. Deleting a task removes it and nothing else: after a
    successful delete no task with that id is left, every task with
    another id is still there, the order of the tasks that stay is as
    before, and deleting an id that is not in the list changes nothing.
    When the request fails, the list is as it was. *)
Theorem delete_removes_only_that_task (u : string) (taskId : nat)
    (err : Thrown) (s : State) :
  let deleted :=
    tasks (handleDeleteTask (Some u) taskId (Resolves tt) s).1.1 in
  Forall (λ t, TaskView.id t ≠ taskId) deleted
  ∧ (∀ t, t ∈ deleted ↔ t ∈ tasks s ∧ TaskView.id t ≠ taskId)
  ∧ sublist deleted (tasks s)
  ∧ (Forall (λ t, TaskView.id t ≠ taskId) (tasks s) → deleted = tasks s)
  ∧ tasks (handleDeleteTask (Some u) taskId (Rejects err) s).1.1 = tasks s.
Proof.
  simpl. split_and!.
  - apply Forall_forall. intros t Ht. by apply list_elem_of_filter in Ht as [? _].
  - intros t. rewrite list_elem_of_filter. tauto.
  - apply sublist_filter.
  - apply filter_all.
  - done.
Qed.

(** X19. A created task comes first, and deleting it again gives the
    list back: after a successful create the new task is at the head of
    the list, before all the tasks from before; when no task from
    before has its id, a successful delete of that id returns the list
    to what it was before the create. *)
Theorem create_then_delete_restores (u : string) (data : TaskCreate)
    (newTask : TaskView.t) (s : State) :
  Forall (λ t, TaskView.id t ≠ TaskView.id newTask) (tasks s) →
  let created := (handleCreateTask (Some u) data (Resolves newTask) s).1.1 in
  tasks created = newTask :: tasks s
  ∧ tasks (handleDeleteTask (Some u) (TaskView.id newTask) (Resolves tt)
             created).1.1
    = tasks s.
Proof.
  intros Hfresh. simpl. split; [done|].
  rewrite filter_cons_False by (intros H; by apply H).
  by apply filter_all.
Qed.

(** X20. Which handlers let a failure through: creating and updating
    throw the error of the request on to the form that called them,
    while loading, toggling and deleting never throw. So the delete
    dialogue of a task item, which closes only when its [onDelete] did
    not throw, closes after the page's delete handler whether the
    request went through or not, and is never left in the deleting
    state; when the request failed the task is still in the list and the
    page shows the error. *)
Theorem delete_dialogue_always_closes (u : string) (taskId : nat)
    (data : TaskCreate) (err : Thrown) (s : State) (item : TaskItem.State) :
  (handleCreateTask (Some u) data (Rejects err) s).2 = Some err
  ∧ (is_Some (editingTask s) →
     (handleUpdateTask (Some u) data (Rejects err) s).2 = Some err)
  ∧ (∀ outcome, (loadTasks (Some u) outcome s).2 = None)
  ∧ (∀ outcome, (handleToggleComplete (Some u) taskId outcome s).2 = None)
  ∧ (∀ outcome,
       let handled := handleDeleteTask (Some u) taskId outcome s in
       let closed := (TaskItem.handleDeleteConfirm handled.2 item).1 in
       handled.2 = None
       ∧ TaskItem.showDeleteModal closed = false
       ∧ TaskItem.isDeleting closed = false)
  ∧ tasks (handleDeleteTask (Some u) taskId (Rejects err) s).1.1 = tasks s
  ∧ error (handleDeleteTask (Some u) taskId (Rejects err) s).1.1
    = Some (error_text "Failed to delete task" err)
  ∧ (∀ thrown,
       TaskItem.showDeleteModal
         (TaskItem.handleDeleteConfirm (Some thrown) item).1
       = TaskItem.showDeleteModal item).
Proof.
  split_and!; try done.
  - intros [editing He]. unfold handleUpdateTask. by rewrite He.
  - by intros [taskList|e].
  - by intros [updated|e].
  - by intros [[]|e].
Qed.

End tasks_page.

(** ** The authentication provider and the two layouts *)

Section auth.

Implicit Types (s : AuthProvider.State) (events : list AuthProvider.Event).

Lemma step_keeps_loaded e s :
  AuthProvider.isLoading s = false →
  AuthProvider.isLoading (AuthProvider.step e s) = false.
Proof.
  intros Hs. destruct e as [[u|err]|[u|err]|[u|err]|[u|err]|[u|err]];
    simpl; done.
Qed.

Lemma foldl_keeps_loaded events s :
  AuthProvider.isLoading s = false →
  AuthProvider.isLoading (foldl (λ s e, AuthProvider.step e s) s events)
  = false.
Proof.
  revert s. induction events as [|e events IH]; intros s Hs; simpl; [done|].
  apply IH. by apply step_keeps_loaded.
Qed.

Lemma run_loaded mount events :
  AuthProvider.isLoading (AuthProvider.run mount events) = false.
Proof.
  unfold AuthProvider.run. apply foldl_keeps_loaded. by destruct mount.
Qed.

Lemma loaded_layouts s :
  AuthProvider.isLoading s = false →
  (AuthLayout.render s = Children ∧ AuthLayout.redirect s = None
   ∧ DashboardLayout.render s = Spinner
   ∧ DashboardLayout.redirect s = Some "/signin")
  ∨ (DashboardLayout.render s = Children ∧ DashboardLayout.redirect s = None
     ∧ AuthLayout.render s = Spinner
     ∧ AuthLayout.redirect s = Some "/dashboard").
Proof.
  destruct s as [[u|] l]; simpl; intros ->.
  - right. unfold DashboardLayout.render, DashboardLayout.redirect,
      AuthLayout.render, AuthLayout.redirect; simpl.
    done.
  - left. done.
Qed.

(** X21. The two layouts never disagree about a state of the provider:
    the sign-in pages send the visitor to the dashboard exactly when the
    dashboard shows its pages, the dashboard sends the visitor to the
    sign-in pages exactly when those are shown, the two never redirect at
    once, and both show the spinner exactly while the session check is
    running. *)
Theorem layouts_agree_on_every_state s :
  (AuthLayout.redirect s = Some "/dashboard"
   ↔ DashboardLayout.render s = Children)
  ∧ (DashboardLayout.redirect s = Some "/signin"
     ↔ AuthLayout.render s = Children)
  ∧ ¬ (is_Some (AuthLayout.redirect s)
       ∧ is_Some (DashboardLayout.redirect s))
  ∧ (AuthProvider.isLoading s = true ↔
     AuthLayout.render s = Spinner ∧ DashboardLayout.render s = Spinner).
Proof.
  destruct s as [[u|] [|]];
    unfold DashboardLayout.render, DashboardLayout.redirect,
      AuthLayout.render, AuthLayout.redirect; simpl;
    try rewrite bool_decide_eq_true_2 by eauto; simpl;
    split_and!; try split; try done;
    try (by intros [[? ?] [? ?]]); try (by intros [? ?]).
Qed.

(** X22. Once the provider is mounted its session check has ended, whatever
    the check answered and whatever calls the pages made since: the spinner
    of the check is gone for good, and exactly one of the two layouts shows
    its pages while the other one redirects to it. *)
Theorem mounted_provider_shows_one_side mount events :
  let s := AuthProvider.run mount events in
  AuthProvider.isLoading s = false
  ∧ ((AuthLayout.render s = Children ∧ AuthLayout.redirect s = None
      ∧ DashboardLayout.render s = Spinner
      ∧ DashboardLayout.redirect s = Some "/signin")
     ∨ (DashboardLayout.render s = Children
        ∧ DashboardLayout.redirect s = None
        ∧ AuthLayout.render s = Spinner
        ∧ AuthLayout.redirect s = Some "/dashboard")).
Proof.
  intros s. pose proof (run_loaded mount events) as Hs. fold s in Hs.
  split; [done|]. by apply loaded_layouts.
Qed.

(** X23. A call of the provider that fails changes nothing: after any
    history, a rejected sign-in, sign-up or sign-out leaves the pages as
    they were; a sign-in or sign-up that succeeds opens the dashboard for
    that user, and a sign-out that succeeds closes it. *)
Theorem last_auth_call_decides mount events :
  let s := AuthProvider.run mount events in
  let after e := AuthProvider.run mount (events ++ [e]) in
  (∀ err, after (AuthProvider.Signin (Rejects err)) = s
          ∧ after (AuthProvider.Signup (Rejects err)) = s
          ∧ after (AuthProvider.Signout (Rejects err)) = s)
  ∧ (∀ u, AuthProvider.user (after (AuthProvider.Signin (Resolves u)))
          = Some u
          ∧ DashboardLayout.render (after (AuthProvider.Signin (Resolves u)))
            = Children
          ∧ AuthProvider.user (after (AuthProvider.Signup (Resolves u)))
            = Some u
          ∧ DashboardLayout.render (after (AuthProvider.Signup (Resolves u)))
            = Children)
  ∧ (∀ v, AuthProvider.user (after (AuthProvider.Signout (Resolves v)))
          = None
          ∧ DashboardLayout.redirect
              (after (AuthProvider.Signout (Resolves v))) = Some "/signin"
          ∧ AuthLayout.render (after (AuthProvider.Signout (Resolves v)))
            = Children).
Proof.
  intros s after.
  assert (Hafter : ∀ e, after e = AuthProvider.step e s).
  { intros e. unfold after, s, AuthProvider.run. by rewrite foldl_app. }
  pose proof (run_loaded mount events) as Hs. fold s in Hs.
  split_and!.
  - intros err. by rewrite !Hafter.
  - intros u. rewrite !Hafter. simpl. rewrite Hs.
    unfold DashboardLayout.render. simpl. done.
  - intros v. rewrite !Hafter. simpl. rewrite Hs. done.
Qed.

(** X24. The sign-out button of the dashboard: the browser is sent to the
    sign-in page exactly when the request succeeded, and then the user is
    forgotten; when the request fails the provider is left as it was, the
    error toast is shown and no route is pushed. *)
Theorem sign_out_button s outcome :
  let '(s', notice, route) := DashboardLayout.handleSignout outcome s in
  (route = Some "/signin" ↔ ∃ v, outcome = Resolves v)
  ∧ (route = Some "/signin" →
     AuthProvider.user s' = None ∧ notice_ok notice = true
     ∧ AuthProvider.isLoading s' = AuthProvider.isLoading s)
  ∧ (route ≠ Some "/signin" →
     s' = s ∧ notice_ok notice = false ∧ route = None).
Proof.
  destruct outcome as [v|err]; simpl.
  - split_and!; [|done|done]. split; [|done]. intros _. by exists v.
  - split_and!; [|done|done]. split; [done|]. by intros [v ?].
Qed.

Lemma string_prefix_app (p r : string) : String.prefix p (p +:+ r) = true.
Proof.
  induction p as [|a p IH]; simpl; [by destruct r|].
  by destruct (ascii_dec a a).
Qed.

Lemma string_prefix_chain (p q t : string) :
  String.prefix p t = true → String.prefix q t = true →
  String.length p ≤ String.length q → String.prefix p q = true.
Proof.
  revert p q. induction t as [|c t IH]; intros p q.
  - destruct p; [|done]. by destruct q.
  - destruct p as [|a p]; [by destruct q|].
    destruct q as [|b q]; simpl; [lia|].
    destruct (ascii_dec a c) as [->|]; [|done].
    destruct (ascii_dec b c) as [->|]; [|done].
    destruct (ascii_dec c c); [|done].
    intros Hp Hq Hlen. apply IH; [done|done|lia].
Qed.

Lemma tasks_chat_exclusive (pathname : string) :
  DashboardLayout.isActive pathname "/dashboard/tasks" = true →
  DashboardLayout.isActive pathname "/dashboard/chat" = true → False.
Proof.
  unfold DashboardLayout.isActive.
  rewrite !orb_true_iff, !String.eqb_eq.
  intros [->|Ht] [Hc|Hc]; try done.
  - subst pathname. vm_compute in Ht. done.
  - pose proof (string_prefix_chain _ _ _ Hc Ht) as H.
    assert (Hf : String.prefix ("/dashboard/chat" +:+ "/")
                   ("/dashboard/tasks" +:+ "/") = false) by done.
    rewrite H in Hf; [done|]. simpl. lia.
Qed.

(** X25. The navigation bar highlights at most one entry, whatever the
    path. *)
Theorem one_nav_item_active (pathname : string) :
  length (filter (λ item, Is_true (DashboardLayout.isActive pathname item.2))
                 DashboardLayout.navItems) ≤ 1.
Proof.
  unfold DashboardLayout.navItems.
  pose proof (tasks_chat_exclusive pathname) as Hx.
  rewrite filter_cons. simpl.
  destruct (DashboardLayout.isActive pathname "/dashboard/tasks") eqn:Ht;
    rewrite filter_cons; simpl;
    destruct (DashboardLayout.isActive pathname "/dashboard/chat") eqn:Hc;
    simpl; first [lia | by destruct Hx].
Qed.

Lemma string_app_self (href tail : string) :
  href +:+ tail = href ↔ tail = EmptyString.
Proof.
  induction href as [|a href IH]; [done|].
  change (String a href +:+ tail) with (String a (href +:+ tail)).
  split.
  - intros [= H]. by apply IH.
  - intros H. f_equal. by apply IH.
Qed.

Lemma string_prefix_cancel (href a b : string) :
  String.prefix (href +:+ a) (href +:+ b) = String.prefix a b.
Proof.
  induction href as [|c href IH]; simpl; [done|].
  by destruct (ascii_dec c c).
Qed.

(** X26. An entry of the navigation bar is highlighted on its own page and
    on the pages below it, and on no other path that starts with its
    address: a path that continues the address is active exactly when the
    continuation is empty or starts with a slash. *)
Theorem nav_item_active_on_its_pages (href tail : string) :
  DashboardLayout.isActive (href +:+ tail) href = true
  ↔ tail = EmptyString ∨ ∃ rest, tail = "/" +:+ rest.
Proof.
  unfold DashboardLayout.isActive.
  rewrite orb_true_iff, String.eqb_eq, string_app_self,
    string_prefix_cancel.
  apply or_iff_compat_l.
  destruct tail as [|c tail]; cbn [String.prefix].
  - split; [done|]. by intros [rest ?].
  - destruct (ascii_dec "/" c) as [<-|Hc].
    + split; [|by destruct tail]. intros _. by exists tail.
    + split; [done|]. intros [rest Hrest].
      change ("/" +:+ rest) with (String "/" rest) in Hrest.
      injection Hrest as Hhead _. by destruct Hc.
Qed.

End auth.

(** ** The further properties at work on sample data *)

Lemma created_conversation_is_owned_witness :
  ∃ c, (create_conversation sample_world "carol" (Some "shopping")).2 = Ok c
       ∧ Conversation.user_id c = "carol"
       ∧ c ∈ get_user_conversations
               (create_conversation sample_world "carol" (Some "shopping")).1
               "carol".
Proof.
  destruct (created_conversation_is_owned sample_world "carol"
              (Some "shopping"))
    as (c & H1 & H2 & _ & _ & _ & _ & _ & H3).
  - vm_compute. reflexivity.
  - unfold user_id_limit. simpl. lia.
  - intros t [= <-]. unfold title_limit. simpl. lia.
  - exists c. split_and!; assumption.
Defined.

Lemma add_message_needs_parent_witness :
  (add_message sample_world 9 "user" "hello" None).2 = Raise IntegrityError
  ∧ db (add_message sample_world 9 "user" "hello" None).1 = db sample_world.
Proof.
  destruct (add_message_needs_parent sample_world 9 "user" "hello" None)
    as (_ & Hraise & Hdb).
  - vm_compute. reflexivity.
  - split; [|exact Hdb]. apply Hraise. unfold role_limit. simpl. lia.
Defined.

Lemma sample_world_integrity : integrity (db sample_world).
Proof.
  split_and!.
  - apply NoDup_nil_2.
  - apply Forall_nil_2.
  - apply sample_world_wf.
Defined.

Lemma access_layer_keeps_integrity_witness :
  integrity (db (exec_op sample_world (OpAddMessage 7 "user" "hello" None))).
Proof.
  apply access_layer_keeps_integrity. exact sample_world_integrity.
Defined.

Lemma appended_message_is_read_back_last_witness :
  ∃ m, (add_message sample_world 7 "user" "hello" None).2 = Ok m
       ∧ Message.content m = "hello"
       ∧ last (get_conversation_messages
                 (add_message sample_world 7 "user" "hello" None).1 7 20)
         = Some m.
Proof.
  destruct (appended_message_is_read_back_last sample_world 7 "user" "hello"
              None alice_conversation 20)
    as [Hvalid _].
  - apply Forall_nil_2.
  - vm_compute. reflexivity.
  - apply Forall_nil_2.
  - lia.
  - destruct Hvalid as (m & Hm & _ & _ & Hcontent & _ & Hlast).
    + apply list_elem_of_here.
    + exists m. split_and!; assumption.
Defined.

Lemma appended_conversation_listed_first_witness :
  ∃ c', head (get_user_conversations
                (add_message sample_world 7 "user" "hello" None).1 "alice")
        = Some c'
        ∧ conversations
            (db (add_message sample_world 7 "user" "hello" None).1) !! 7
          = Some c'.
Proof.
  destruct (appended_conversation_listed_first sample_world 7 "user" "hello"
              None alice_conversation)
    as [Hvalid _].
  - apply Forall_nil_2.
  - vm_compute. reflexivity.
  - simpl.
    apply map_Forall_insert_2; [simpl; lia|].
    apply map_Forall_insert_2; [simpl; lia|].
    apply map_Forall_empty.
  - destruct Hvalid as (c' & Hhead & Hrow & _).
    + apply list_elem_of_here.
    + exists c'. split; assumption.
Defined.

Lemma silent_run_keeps_clock : keeps_clock silent_run.
Proof. intros w context user_id. simpl. lia. Defined.

Lemma turn_is_in_the_next_window_witness :
  ∃ earlier am,
    Message.content am = "Done."
    ∧ get_conversation_messages
        (handle_chat silent_run sample_world "alice" "hello" (Some 7)).1 7 20
      = earlier ++ [appended sample_world 7 "user" "hello" None; am].
Proof.
  assert (get_or_create_conversation sample_world "alice" (Some 7)
          = (sample_world, Ok alice_conversation)) as Hresolved
    by (vm_compute; reflexivity).
  assert (Forall (λ m, Message.created_at m < clock sample_world)
                 (conversation_log sample_world
                    (Conversation.id alice_conversation))) as Hpast
    by apply Forall_nil_2.
  assert (2 ≤ 20) as Hlimit by lia.
  destruct (turn_is_in_the_next_window silent_run silent_run_keeps_store
              silent_run_keeps_clock sample_world "alice" "hello" (Some 7)
              sample_world alice_conversation sample_world_wf Hresolved
              Hpast _ _ 20 eq_refl Hlimit)
    as (earlier & am & _ & Hcontent & Hwindow & _).
  exists earlier, am. split; [exact Hcontent|exact Hwindow].
Defined.

Lemma sends_leave_their_transcript_witness :
  ui_messages (send_all (Some "alice") sample_exchanges sample_chat)
  = [greeting;
     UiMessage.mk "user-6" role_user "Add milk" None "2026-02-10T10:00:06Z";
     chat_message answer].
Proof.
  refine (proj1 (sends_leave_their_transcript "alice" sample_exchanges
                   sample_chat _ _ _)).
  - reflexivity.
  - apply Forall_singleton. simpl. intros [n Hn].
    unfold template in Hn. simpl in Hn. discriminate Hn.
  - apply Forall_cons. split.
    + simpl. intros [n Hn]. unfold template in Hn. simpl in Hn.
      discriminate Hn.
    + apply Forall_singleton. exact I.
Defined.

Lemma new_chat_first_answer_witness :
  ui_conversationId
    (ChatPage.handleSendMessage (Some "alice") "Add milk"
       (mkInstant 5 "2026-02-10T10:00:05Z") (Fulfilled answer)
       (mkInstant 6 "2026-02-10T10:00:06Z") (handleNewChat sample_chat)).1
  = Some "c1".
Proof.
  assert (chat_conversation_id answer ≠ EmptyString) as Hid
    by (simpl; discriminate).
  pose proof (new_chat_first_answer "alice" "Add milk"
                (mkInstant 5 "2026-02-10T10:00:05Z")
                (mkInstant 6 "2026-02-10T10:00:06Z") answer sample_chat
                (Resolves []) Hid) as H.
  cbv zeta in H. destruct H as (_ & H & _). exact H.
Defined.

Lemma create_then_delete_restores_witness :
  TasksPage.tasks
    (TasksPage.handleDeleteTask (Some "alice") 2 (Resolves tt)
       (TasksPage.handleCreateTask (Some "alice")
          (mkTaskCreate "Buy eggs" None) (Resolves eggs_view)
          sample_tasks_page).1.1).1.1
  = [milk_view].
Proof.
  assert (Forall (λ t, TaskView.id t ≠ TaskView.id eggs_view)
                 (TasksPage.tasks sample_tasks_page)) as Hfresh
    by (apply Forall_singleton; simpl; lia).
  pose proof (create_then_delete_restores "alice"
                (mkTaskCreate "Buy eggs" None) eggs_view sample_tasks_page
                Hfresh) as H.
  cbv zeta in H. destruct H as (_ & H). exact H.
Defined.
